(** * BVH construction and dual-tree collision test

    A shallow embedding of [Application::construct] and
    [Application::test_collision] (application.cpp).

    Conventions of the embedding.

    - Coordinates.  A vertex coordinate is a finite [float], kept as the
      rational it denotes ([Q]); comparisons, [std::min] and [std::max] are
      exact on such values.  The arithmetic of [construct] (the edge lengths
      of lines 50-52, the midpoint of lines 59-69, the two differences of
      line 116) is binary32 arithmetic: every operation rounds its exact
      result to the nearest binary32 number, ties to even, and overflows to
      an infinity (module [Float]).  The products and sums inside glm's
      [operator*], which is not part of these sources, are taken exact.
      Vertices with a NaN or infinite coordinate are outside the model.
    - Triangles.  A [Triangle*] is an address ([tri_ptr]); the scene owns the
      triangles, so the vertices behind an address are read through a mesh
      [tri_ptr -> Triangle].  The vertices are never written by this code.
    - Nodes.  [new BVHNode] takes the next free address; the tree that
      [construct] returns is an owned binary tree whose child pointers can
      each be null ([None]).
    - Flags.  The [collision] members of nodes and triangles are the only
      cells written after construction.  They live in a store indexed by
      address, so a write through one reference is seen through every other
      reference to the same object. *)

From Stdlib Require Import ZArith QArith Qabs Qround Qreduction Lia Lqa.
From stdpp Require Import list gmap.

Local Open Scope Q_scope.

(** ** Coordinates and the comparison operators of the source *)

Module Coord.

Definition le (a b : Q) : bool := Qle_bool a b.          (* a <= b *)
Definition lt (a b : Q) : bool := negb (Qle_bool b a).   (* a <  b *)
Definition ge (a b : Q) : bool := le b a.                (* a >= b *)

(** [std::min(a, b)] is [(b < a) ? b : a]; [std::max(a, b)] is
    [(a < b) ? b : a]. *)
Definition std_min (a b : Q) : Q := if lt b a then b else a.
Definition std_max (a b : Q) : Q := if lt a b then b else a.

(** [std::min({a, b, c})] and [std::max({a, b, c})] scan the list from the
    left and keep the first extremal element. *)
Definition std_min3 (a b c : Q) : Q :=
  let r := a in
  let r := if lt b r then b else r in
  if lt c r then c else r.
Definition std_max3 (a b c : Q) : Q :=
  let r := a in
  let r := if lt r b then b else r in
  if lt r c then c else r.

End Coord.

(** ** The [float] arithmetic of the source (IEEE 754 binary32) *)

Module Float.

(** A value of type [float]: a finite number, an infinity or NaN.  The two
    zeros are not told apart: they compare equal and the program does not
    divide by a coordinate. *)
Inductive t := Finite (q : Q) | PosInf | NegInf | NaN.

(** The integer nearest to [x]; the even one of the two when [x] lies
    halfway.  Each operation is taken to round to binary32, as it does with
    SSE arithmetic ([FLT_EVAL_METHOD] 0). *)
Definition nearest_even (x : Q) : Z :=
  let f := Qfloor x in
  match ((x - inject_Z f) ?= (1 # 2))%Q with
  | Lt => f
  | Gt => (f + 1)%Z
  | Eq => if Z.even f then f else (f + 1)%Z
  end.

(** Magnitudes are counted in units of [2 ^ -149], the least positive
    binary32 number.  A magnitude whose integer part is [n] has its 24
    significant bits end at [2 ^ ulp_exp n] units: [Z.log2 n - 23] for a
    normal number, [0] for a subnormal one. *)
Definition ulp_exp (n : Z) : Z := Z.max (Z.log2 n - 23) 0.

(** [s] rounded to a multiple of [2 ^ k]. *)
Definition to_grid (k : Z) (s : Q) : Z :=
  (nearest_even (s / inject_Z (2 ^ k)) * 2 ^ k)%Z.

(** The magnitude [q >= 0] rounded to 24 significant bits, in units. *)
Definition round_mag (q : Q) : Z :=
  let s := q * inject_Z (2 ^ 149) in
  to_grid (ulp_exp (Qfloor s)) s.

(** The number that a magnitude in units stands for. *)
Definition mag_value (r : Z) : Q := Qred (inject_Z r / inject_Z (2 ^ 149)).

(** A rounded magnitude of [2 ^ 128] or more is an overflow. *)
Definition of_mag (negative : bool) (r : Z) : t :=
  if (2 ^ 277 <=? r)%Z then (if negative then NegInf else PosInf)
  else
    let v := mag_value r in
    Finite (if negative then - v else v).

(** The binary32 result of an operation whose exact result is [q]. *)
Definition round (q : Q) : t :=
  if Qle_bool 0 q then of_mag false (round_mag q)
  else of_mag true (round_mag (- q)).

Definition neg (x : t) : t :=
  match x with
  | Finite q => Finite (- q)
  | PosInf => NegInf
  | NegInf => PosInf
  | NaN => NaN
  end.

Definition add (x y : t) : t :=
  match x, y with
  | NaN, _ | _, NaN => NaN
  | Finite a, Finite b => round (a + b)
  | PosInf, NegInf | NegInf, PosInf => NaN
  | PosInf, _ | _, PosInf => PosInf
  | NegInf, _ | _, NegInf => NegInf
  end.

Definition sub (x y : t) : t := add x (neg y).

(** [x / 2.0f]. *)
Definition half (x : t) : t :=
  match x with Finite a => round (a / 2) | _ => x end.

Definition abs (x : t) : t :=
  match x with
  | Finite a => Finite (Qabs a)
  | NegInf => PosInf
  | _ => x
  end.

(** Comparisons: every comparison with NaN is false. *)
Definition le (x y : t) : bool :=
  match x, y with
  | NaN, _ | _, NaN => false
  | Finite a, Finite b => Qle_bool a b
  | NegInf, _ | _, PosInf => true
  | _, _ => false
  end.
Definition lt (x y : t) : bool :=
  match x, y with
  | NaN, _ | _, NaN => false
  | _, _ => negb (le y x)
  end.
Definition ge (x y : t) : bool := le y x.
Definition gt (x y : t) : bool := lt y x.

(** [q] is a binary32 number: rounding leaves it as it is. *)
Definition is_exact (q : Q) : bool :=
  match round q with Finite v => Qeq_bool v q | _ => false end.

End Float.

(** ** glm vectors and matrices *)

Record vec4 := mkvec4 { vx : Q; vy : Q; vz : Q; vw : Q }.

(** A [glm::mat4] is stored by columns. *)
Record mat4 := mkmat4 { col0 : vec4; col1 : vec4; col2 : vec4; col3 : vec4 }.

Definition vscale (v : vec4) (k : Q) : vec4 :=
  mkvec4 (vx v * k) (vy v * k) (vz v * k) (vw v * k).
Definition vadd (a b : vec4) : vec4 :=
  mkvec4 (vx a + vx b) (vy a + vy b) (vz a + vz b) (vw a + vw b).

(** [m * v] for a column vector [v]: the columns of [m] weighted by the
    components of [v], summed pairwise as glm does. *)
Definition mat_mul_vec (m : mat4) (v : vec4) : vec4 :=
  vadd (vadd (vscale (col0 m) (vx v)) (vscale (col1 m) (vy v)))
       (vadd (vscale (col2 m) (vz v)) (vscale (col3 m) (vw v))).

Definition mat_identity : mat4 :=
  mkmat4 (mkvec4 1 0 0 0) (mkvec4 0 1 0 0) (mkvec4 0 0 1 0) (mkvec4 0 0 0 1).

Definition mat_translate (tx ty tz : Q) : mat4 :=
  mkmat4 (mkvec4 1 0 0 0) (mkvec4 0 1 0 0) (mkvec4 0 0 1 0) (mkvec4 tx ty tz 1).

Inductive axis := AxisX | AxisY | AxisZ.

Definition coord (ax : axis) (v : vec4) : Q :=
  match ax with AxisX => vx v | AxisY => vy v | AxisZ => vz v end.

(** ** Triangles *)

(** Modelled from the spec: [Triangle] is declared in application.hpp, which
    is not among the sources.  The source reads its members [v1], [v2], [v3]
    and writes its member [collision]; the specification describes it as
    three vertices in homogeneous coordinates and a mutable flag.  The record
    holds the vertices; the flag of the triangle at address [p] is in the
    store of flags (see [flags] below). *)
Record Triangle := mkTriangle { v1 : vec4; v2 : vec4; v3 : vec4 }.

(** Modelled from the spec: [Triangle::getVertices] is declared in
    application.hpp, which is not among the sources.  The specification
    describes a triangle as three vertices and the bounding box as ranging
    over all vertices of all input triangles, so the accessor yields the three
    vertices in order. *)
Definition getVertices (tr : Triangle) : list vec4 := [v1 tr; v2 tr; v3 tr].

Definition tri_ptr := positive.
Definition node_ptr := positive.

(** ** Nodes *)

(** Modelled from the spec: [BVHNode] is declared in application.hpp, which is
    not among the sources.  The source builds a node from [min], [max] and the
    triangles, attaches children with [set_left] and [set_right], and reads it
    back with [get_min], [get_max], [get_triangles], [get_left] and
    [get_right]; the specification describes a node as a box, the triangles,
    an optional left child, an optional right child, a depth counter and a
    mutable flag.  [get_left]/[get_right] are [None] for a null child
    pointer.  [addr] is the address of the node, under which its [collision]
    flag is kept in the store of flags.  The depth counter is read once, by
    [construct] on the node it has just created (see [fresh_depth]), and is
    not a field here. *)
Local Unset Elimination Schemes.
Inductive BVHNode := mkBVHNode {
  addr : node_ptr;
  get_min : vec4;
  get_max : vec4;
  get_triangles : list tri_ptr;
  get_left : option BVHNode;
  get_right : option BVHNode
}.
Local Set Elimination Schemes.

(** Induction on a tree: the children, when present, satisfy the property. *)
Section BVHNode_induction.
Variable P : BVHNode -> Prop.
Hypothesis step :
  forall a mn mx ts l r,
    (forall x, l = Some x -> P x) -> (forall x, r = Some x -> P x) ->
    P (mkBVHNode a mn mx ts l r).

Fixpoint BVHNode_ind (n : BVHNode) : P n :=
  match n with
  | mkBVHNode a mn mx ts l r =>
      step a mn mx ts l r
        (fun x (e : l = Some x) =>
           match l as o return o = Some x -> P x with
           | Some y => fun e => eq_ind y P (BVHNode_ind y) x (Some_inj _ _ e)
           | None => fun e => match None_ne_Some _ e with end
           end e)
        (fun x (e : r = Some x) =>
           match r as o return o = Some x -> P x with
           | Some y => fun e => eq_ind y P (BVHNode_ind y) x (Some_inj _ _ e)
           | None => fun e => match None_ne_Some _ e with end
           end e)
  end.
End BVHNode_induction.

(** Outcome of a call that may throw.  [Exhausted] is not a behaviour of the
    program: it marks a run of the model cut short by its recursion bound,
    and [construct_total] shows that [construct] never yields it. *)
Inductive outcome (A : Type) :=
| Done (a : A)
| Throws
| Exhausted.
Arguments Done {A} a.
Arguments Throws {A}.
Arguments Exhausted {A}.

Definition obind {A B} (m : outcome A) (k : A -> outcome B) : outcome B :=
  match m with
  | Done a => k a
  | Throws => Throws
  | Exhausted => Exhausted
  end.

(** Conversion of an [int] to [size_t] (64 bits), as the comparison
    [size() >= min_triangles_for_split] performs it. *)
Definition to_size_t (n : Z) : Z := (n mod 2 ^ 64)%Z.

(** ** The tree builder *)

Section Construct.

(** The scene's triangles. *)
Variable mesh : tri_ptr -> Triangle.

(** What [get_depth()] returns on a node that the constructor has just
    created.  The class is declared in application.hpp, which is not among
    the sources, so the value is left open. *)
Variable fresh_depth : Z.

(** Lines 29-35: one vertex widens the running box. *)
Definition widen (box : vec4 * vec4) (vertex : vec4) : vec4 * vec4 :=
  let '(minPoint, maxPoint) := box in
  (mkvec4 (Coord.std_min (vx vertex) (vx minPoint))
          (Coord.std_min (vy vertex) (vy minPoint))
          (Coord.std_min (vz vertex) (vz minPoint))
          (vw minPoint),
   mkvec4 (Coord.std_max (vx vertex) (vx maxPoint))
          (Coord.std_max (vy vertex) (vy maxPoint))
          (Coord.std_max (vz vertex) (vz maxPoint))
          (vw maxPoint)).

(** Lines 25-37: the two nested loops. *)
Definition widen_all (triangles : list tri_ptr) (box : vec4 * vec4)
  : vec4 * vec4 :=
  fold_left (fun box tr => fold_left widen (getVertices (mesh tr)) box)
            triangles box.

(** Lines 21-37.  [triangles.at(0)] throws on an empty vector. *)
Definition bounding_box (triangles : list tri_ptr) : outcome (vec4 * vec4) :=
  match triangles with
  | [] => Throws
  | first :: _ =>
      let minPoint := v1 (mesh first) in
      let maxPoint := minPoint in
      Done (widen_all triangles (minPoint, maxPoint))
  end.

(** Line 50-52: [std::abs(maxPoint.x - minPoint.x)], a [float]. *)
Definition float_length (lo hi : Q) : Float.t :=
  Float.abs (Float.sub (Float.Finite hi) (Float.Finite lo)).

(** Lines 59, 64, 69: [(minPoint.x + maxPoint.x) / 2.0f], a [float]. *)
Definition float_midpoint (lo hi : Q) : Float.t :=
  Float.half (Float.add (Float.Finite lo) (Float.Finite hi)).

(** Lines 47-71: the axis of the longest edge and the split coordinate. *)
Definition longest_axis (minPoint maxPoint : vec4) : axis * Float.t :=
  let xLength := float_length (vx minPoint) (vx maxPoint) in
  let yLength := float_length (vy minPoint) (vy maxPoint) in
  let zLength := float_length (vz minPoint) (vz maxPoint) in
  if Float.ge xLength yLength && Float.ge xLength zLength then
    (AxisX, float_midpoint (vx minPoint) (vx maxPoint))
  else if Float.ge yLength xLength && Float.ge yLength zLength then
    (AxisY, float_midpoint (vy minPoint) (vy maxPoint))
  else
    (AxisZ, float_midpoint (vz minPoint) (vz maxPoint)).

(** Lines 100-125: [true] when the triangle is pushed to [leftTriangles],
    [false] when it is pushed to [rightTriangles]. *)
Definition goes_left (splitCoord : Float.t)
           (firstVertexCoord secondVertexCoord thirdVertexCoord : Q) : bool :=
  if Float.le (Float.Finite firstVertexCoord) splitCoord
     && Float.le (Float.Finite secondVertexCoord) splitCoord
     && Float.le (Float.Finite thirdVertexCoord) splitCoord then true
  else if Float.gt (Float.Finite firstVertexCoord) splitCoord
          && Float.gt (Float.Finite secondVertexCoord) splitCoord
          && Float.gt (Float.Finite thirdVertexCoord) splitCoord then false
  else
    let minDistance :=
      Coord.std_min3 firstVertexCoord secondVertexCoord thirdVertexCoord in
    let maxDistance :=
      Coord.std_max3 firstVertexCoord secondVertexCoord thirdVertexCoord in
    if Float.ge (Float.sub splitCoord (Float.Finite minDistance))
                (Float.sub (Float.Finite maxDistance) splitCoord)
    then true else false.

Definition triangle_goes_left (ax : axis) (splitCoord : Float.t)
           (tr : tri_ptr)
  : bool :=
  goes_left splitCoord (coord ax (v1 (mesh tr))) (coord ax (v2 (mesh tr)))
            (coord ax (v3 (mesh tr))).

(** Lines 78-126: the loop that fills [leftTriangles] and
    [rightTriangles] with [push_back]. *)
Definition split_step (ax : axis) (splitCoord : Float.t)
           (halves : list tri_ptr * list tri_ptr) (tr : tri_ptr)
  : list tri_ptr * list tri_ptr :=
  let '(leftTriangles, rightTriangles) := halves in
  if triangle_goes_left ax splitCoord tr
  then (leftTriangles ++ [tr], rightTriangles)
  else (leftTriangles, rightTriangles ++ [tr]).

Definition split_triangles (ax : axis) (splitCoord : Float.t)
           (triangles : list tri_ptr) : list tri_ptr * list tri_ptr :=
  fold_left (split_step ax splitCoord) triangles ([], []).

(** Lines 129-130: the test that guards the creation of children. *)
Definition may_split (leftTriangles rightTriangles : list tri_ptr)
           (max_depth : Z) : bool :=
  (0 <? length leftTriangles)%nat && (0 <? length rightTriangles)%nat
  && (fresh_depth <=? max_depth)%Z.

(** Lines 132-139 and 141-148: the depth handed to a child.  An [int] is
    an unbounded integer here.  [max_depth - 1] is only evaluated after the
    test [get_depth() <= max_depth] has passed, so it does not leave the range
    of [int] unless the depth counter itself is [INT_MIN]. *)
Definition child_depth (half : list tri_ptr) (max_depth : Z)
           (min_triangles_for_split : Z) : Z :=
  if (Z.of_nat (length half) >=? to_size_t min_triangles_for_split)%Z
  then (max_depth - 1)%Z else 0%Z.

(** [construct], with the address of the next [new BVHNode] threaded
    through.  [fuel] bounds the recursion depth of the model. *)
Fixpoint construct_rec (fuel : nat) (triangles : list tri_ptr)
         (max_depth : Z) (min_triangles_for_split : Z) (next : node_ptr)
  : outcome (BVHNode * node_ptr) :=
  match fuel with
  | O => match triangles with [] => Throws | _ => Exhausted end
  | S fuel =>
      obind (bounding_box triangles) (fun '(minPoint, maxPoint) =>
      let here := next in
      let next := Pos.succ next in
      let '(ax, splitCoord) := longest_axis minPoint maxPoint in
      let '(leftTriangles, rightTriangles) :=
        split_triangles ax splitCoord triangles in
      if may_split leftTriangles rightTriangles max_depth then
        obind (construct_rec fuel leftTriangles
                 (child_depth leftTriangles max_depth min_triangles_for_split)
                 min_triangles_for_split next) (fun '(l, next) =>
        obind (construct_rec fuel rightTriangles
                 (child_depth rightTriangles max_depth min_triangles_for_split)
                 min_triangles_for_split next) (fun '(r, next) =>
        Done (mkBVHNode here minPoint maxPoint triangles (Some l) (Some r),
              next)))
      else
        Done (mkBVHNode here minPoint maxPoint triangles None None, next))
  end.

(** [construct] continuing from a heap whose next free node address is
    [next].  A call on [n] triangles recurses at most [n - 1] levels deep,
    because both halves of a split are non-empty, so a bound of [n] is never
    reached ([construct_rec_fuel]). *)
Definition construct_at (triangles : list tri_ptr) (max_depth : Z)
           (min_triangles_for_split : Z) (next : node_ptr)
  : outcome (BVHNode * node_ptr) :=
  construct_rec (length triangles) triangles max_depth
                min_triangles_for_split next.

(** [construct] on a heap that holds no node yet. *)
Definition construct (triangles : list tri_ptr) (max_depth : Z)
           (min_triangles_for_split : Z) : outcome BVHNode :=
  obind (construct_at triangles max_depth min_triangles_for_split 1%positive)
        (fun '(root, _) => Done root).

End Construct.

(** ** The collision tester *)

(** One call of the external primitive, with its arguments. *)
Record prim_call := mkprim_call {
  call_first : tri_ptr;
  call_first_matrix : mat4;
  call_second : tri_ptr;
  call_second_matrix : mat4
}.

(** The cells written by [test_collision]: the [collision] member of every
    node and of every triangle ([p] is in the set when the flag at address [p]
    is [true]).  [calls] is a history that the program does not keep: the
    calls of the external primitive made so far, oldest first.  It is there
    so that statements can say which pairs of triangles were tested. *)
Record flags := mkflags {
  node_collision : gset node_ptr;
  tri_collision : gset tri_ptr;
  calls : list prim_call
}.

Definition no_flags : flags := mkflags ∅ ∅ [].

(** [node.collision = true] *)
Definition mark_node (n : node_ptr) (s : flags) : flags :=
  mkflags ({[n]} ∪ node_collision s) (tri_collision s) (calls s).

(** [tr->collision = true] *)
Definition mark_triangle (tr : tri_ptr) (s : flags) : flags :=
  mkflags (node_collision s) ({[tr]} ∪ tri_collision s) (calls s).

Definition log_call (c : prim_call) (s : flags) : flags :=
  mkflags (node_collision s) (tri_collision s) (calls s ++ [c]).

(** Lines 175-177, one conjunct: the projections of the two boxes on an axis
    overlap. *)
Definition overlap_on (ax : axis) (firstMin firstMax secondMin secondMax : vec4)
  : bool :=
  Coord.ge (coord ax firstMax) (coord ax secondMin)
  && Coord.le (coord ax firstMin) (coord ax secondMax).

(** Lines 175-178: [true] when the two boxes are apart on some axis. *)
Definition separated (firstMin firstMax secondMin secondMax : vec4) : bool :=
  negb (overlap_on AxisX firstMin firstMax secondMin secondMax)
  || negb (overlap_on AxisY firstMin firstMax secondMin secondMax)
  || negb (overlap_on AxisZ firstMin firstMax secondMin secondMax).

Section TestCollision.

Variable mesh : tri_ptr -> Triangle.

(** The external triangle-triangle test.  It is defined outside
    application.cpp; the specification treats it as a black box that maps two
    triangles and their matrices to a boolean, and so does the model: any
    function of the vertices and the matrices. *)
Variable triangle_triangle_intersection :
  Triangle -> mat4 -> Triangle -> mat4 -> bool.

Variables first_matrix second_matrix : mat4.

(** Lines 201-205: the body of the inner loop. *)
Definition test_pair (ti tj : tri_ptr) (s : flags) : flags :=
  let s := log_call (mkprim_call ti first_matrix tj second_matrix) s in
  if triangle_triangle_intersection (mesh ti) first_matrix
                                    (mesh tj) second_matrix
  then mark_triangle tj (mark_triangle ti s)
  else s.

(** Lines 197-207: the two nested loops over the triangles of two leaves. *)
Definition test_triangles (first_triangles second_triangles : list tri_ptr)
           (s : flags) : flags :=
  fold_left (fun s ti =>
               fold_left (fun s tj => test_pair ti tj s) second_triangles s)
            first_triangles s.

(** Lines 168-178 for one pair of nodes. *)
Definition boxes_separated (first_min first_max second_min second_max : vec4)
  : bool :=
  let firstMin := mat_mul_vec first_matrix first_min in
  let firstMax := mat_mul_vec first_matrix first_max in
  let secondMin := mat_mul_vec second_matrix second_min in
  let secondMax := mat_mul_vec second_matrix second_max in
  separated firstMin firstMax secondMin secondMax.

(** The recursion of [test_collision].  A call either descends in the first
    tree or keeps the first node and descends in the second one, whence the
    two nested fixpoints.  The result is [None] when the program would go
    through a null child ([get_left()]/[get_right()] of a node that has only
    one child), which is undefined. *)
Fixpoint test_collision_from (first_node : BVHNode) {struct first_node}
  : BVHNode -> flags -> option flags :=
  match first_node with
  | mkBVHNode first_addr first_min first_max first_triangles
              first_left first_right =>
    fix against (second_node : BVHNode) {struct second_node}
      : flags -> option flags :=
      match second_node with
      | mkBVHNode second_addr second_min second_max second_triangles
                  second_left second_right =>
        fun s =>
        if boxes_separated first_min first_max second_min second_max
        then Some s
        else
          let s := mark_node first_addr s in
          let s := mark_node second_addr s in
          match first_left, second_left with
          | None, None =>
              Some (test_triangles first_triangles second_triangles s)
          | None, Some l2 =>
              match against l2 s with
              | Some s =>
                  match second_right with
                  | Some r2 => against r2 s
                  | None => None
                  end
              | None => None
              end
          | Some l1, None =>
              match test_collision_from l1 second_node s with
              | Some s =>
                  match first_right with
                  | Some r1 => test_collision_from r1 second_node s
                  | None => None
                  end
              | None => None
              end
          | Some l1, Some l2 =>
              match test_collision_from l1 l2 s with
              | Some s =>
                  match second_right with
                  | Some r2 =>
                      match test_collision_from l1 r2 s with
                      | Some s =>
                          match first_right with
                          | Some r1 =>
                              match test_collision_from r1 l2 s with
                              | Some s => test_collision_from r1 r2 s
                              | None => None
                              end
                          | None => None
                          end
                      | None => None
                      end
                  | None => None
                  end
              | None => None
              end
          end
      end
  end.

End TestCollision.

Definition test_collision (mesh : tri_ptr -> Triangle)
           (triangle_triangle_intersection :
              Triangle -> mat4 -> Triangle -> mat4 -> bool)
           (first_node : BVHNode) (first_matrix : mat4)
           (second_node : BVHNode) (second_matrix : mat4)
           (s : flags) : option flags :=
  test_collision_from mesh triangle_triangle_intersection
                      first_matrix second_matrix first_node second_node s.

(** ** Vocabulary for stating properties of trees *)

(** The node itself followed by the nodes of its left and right subtrees. *)
Fixpoint nodes (n : BVHNode) : list BVHNode :=
  match n with
  | mkBVHNode _ _ _ _ l r =>
      n :: match l with Some x => nodes x | None => [] end
        ++ match r with Some x => nodes x | None => [] end
  end.

Definition node_count (n : BVHNode) : nat := length (nodes n).

(** The leaf test of [test_collision]: [&node.get_left() == nullptr]. *)
Definition left_absent (n : BVHNode) : bool :=
  match get_left n with None => true | Some _ => false end.

(** A leaf as the specification defines it: no child on either side. *)
Definition is_leaf (n : BVHNode) : bool :=
  match get_left n, get_right n with None, None => true | _, _ => false end.

Definition both_or_neither (n : BVHNode) : Prop :=
  get_left n = None <-> get_right n = None.

(** A point lies in a box when it does so on the three axes. *)
Definition inside (minPoint maxPoint v : vec4) : Prop :=
  forall ax, coord ax minPoint <= coord ax v /\ coord ax v <= coord ax maxPoint.

(** The length of the box's edge along an axis, as lines 50-52 compute it,
    and the length itself. *)
Definition edge_length (ax : axis) (minPoint maxPoint : vec4) : Float.t :=
  float_length (coord ax minPoint) (coord ax maxPoint).
Definition exact_length (ax : axis) (minPoint maxPoint : vec4) : Q :=
  Qabs (coord ax maxPoint - coord ax minPoint).

(** [before a b]: axis [a] comes strictly before [b] in the order x, y, z. *)
Definition before (a b : axis) : Prop :=
  match a, b with
  | AxisX, AxisY | AxisX, AxisZ | AxisY, AxisZ => True
  | _, _ => False
  end.

(** What one call of [construct] establishes at the node it creates. *)
Definition built_node (mesh : tri_ptr -> Triangle) (m : BVHNode) : Prop :=
  bounding_box mesh (get_triangles m) = Done (get_min m, get_max m)
  /\ ((get_left m = None /\ get_right m = None)
      \/ exists l r,
          get_left m = Some l /\ get_right m = Some r
          /\ split_triangles mesh
               (fst (longest_axis (get_min m) (get_max m)))
               (snd (longest_axis (get_min m) (get_max m)))
               (get_triangles m)
             = (get_triangles l, get_triangles r)
          /\ get_triangles l <> [] /\ get_triangles r <> []).

(** The triangles that the split loop pushes to [leftTriangles]. *)
Definition on_left (mesh : tri_ptr -> Triangle) (ax : axis) (c : Float.t)
           (t : tri_ptr) : Prop :=
  triangle_goes_left mesh ax c t = true.

#[global] Instance on_left_dec mesh ax c t : Decision (on_left mesh ax c t).
Proof. unfold on_left. apply _. Defined.

(** [m] is the least (resp. [M] the greatest) of three coordinates. *)
Definition least_of (m a b c : Q) : Prop :=
  (m == a \/ m == b \/ m == c) /\ m <= a /\ m <= b /\ m <= c.
Definition greatest_of (M a b c : Q) : Prop :=
  (M == a \/ M == b \/ M == c) /\ a <= M /\ b <= M /\ c <= M.

(** Modelled from the spec: the depth counter of [BVHNode] and its accessor
    [get_depth] are declared in application.hpp, which is not among the
    sources.  The specification says that a remaining depth of 0 is exhausted:
    the call that receives it produces a leaf.  Read against the test of line
    130, [node->get_depth() <= max_depth], this says that a node straight out
    of the constructor reports a depth above 0. *)
Definition depth_exhausted_at_zero (fresh_depth : Z) : Prop :=
  (0 < fresh_depth)%Z.

(** The body of [test_collision] with the recursive calls left open: [rec] is
    the function called at lines 215-230.  [descend] is the part that follows
    the two stores to [collision] (lines 190-232). *)
Section TestCollisionBody.

Variable mesh : tri_ptr -> Triangle.
Variable triangle_triangle_intersection :
  Triangle -> mat4 -> Triangle -> mat4 -> bool.
Variables first_matrix second_matrix : mat4.
Variable rec : BVHNode -> BVHNode -> flags -> option flags.

Definition descend (first_node second_node : BVHNode) (s : flags)
  : option flags :=
  if left_absent first_node && left_absent second_node then
    Some (test_triangles mesh triangle_triangle_intersection
            first_matrix second_matrix
            (get_triangles first_node) (get_triangles second_node) s)
  else if left_absent first_node then
    l2 ← get_left second_node;
    s ← rec first_node l2 s;
    r2 ← get_right second_node;
    rec first_node r2 s
  else if left_absent second_node then
    l1 ← get_left first_node;
    s ← rec l1 second_node s;
    r1 ← get_right first_node;
    rec r1 second_node s
  else
    l1 ← get_left first_node;
    l2 ← get_left second_node;
    s ← rec l1 l2 s;
    r2 ← get_right second_node;
    s ← rec l1 r2 s;
    r1 ← get_right first_node;
    s ← rec r1 l2 s;
    rec r1 r2 s.

Definition test_collision_body (first_node second_node : BVHNode)
           (s : flags) : option flags :=
  if boxes_separated first_matrix second_matrix
       (get_min first_node) (get_max first_node)
       (get_min second_node) (get_max second_node)
  then Some s
  else
    let s := mark_node (addr first_node) s in
    let s := mark_node (addr second_node) s in
    descend first_node second_node s.

End TestCollisionBody.

(** What a run adds to the flags: the union of the sets and the new calls. *)
Definition add_flags (e s : flags) : flags :=
  mkflags (node_collision e ∪ node_collision s)
          (tri_collision e ∪ tri_collision s)
          (calls s ++ calls e).

(** Both children or none, at every node. *)
Fixpoint well_formed (n : BVHNode) : bool :=
  match n with
  | mkBVHNode _ _ _ _ None None => true
  | mkBVHNode _ _ _ _ (Some l) (Some r) => well_formed l && well_formed r
  | _ => false
  end.

(** [x] is the left or the right child of [n]. *)
Definition child_of (x n : BVHNode) : Prop :=
  get_left n = Some x \/ get_right n = Some x.

(** Vocabulary for what a run of [test_collision] does to the flags. *)
Section FlagEffects.
Variable mesh : tri_ptr -> Triangle.
Variable triangle_triangle_intersection :
  Triangle -> mat4 -> Triangle -> mat4 -> bool.
Variables first_matrix second_matrix : mat4.

(** The answer of the primitive on a pair of triangles. *)
Definition hit (ti tj : tri_ptr) : bool :=
  triangle_triangle_intersection
    (mesh ti) first_matrix (mesh tj) second_matrix.

(** Every triangle flagged in [e] belongs to a pair that was tested in [e]
    and on which the primitive answered [true]. *)
Definition sound (e : flags) : Prop :=
  forall t, t ∈ tri_collision e ->
    exists ti tj,
      mkprim_call ti first_matrix tj second_matrix ∈ calls e
      /\ hit ti tj = true /\ (t = ti \/ t = tj).

(** [f] either fails on every input or adds the same sound amount to every
    input. *)
Definition effect (f : flags -> option flags) : Prop :=
  (forall s, f s = None)
  \/ exists e, sound e /\ forall s, f s = Some (add_flags e s).
End FlagEffects.

(** [outer] contains [inner], axis by axis. *)
Definition encloses (outer inner : vec4 * vec4) : Prop :=
  forall ax, coord ax (fst outer) <= coord ax (fst inner)
             /\ coord ax (snd inner) <= coord ax (snd outer).

(** ** Vocabulary for further properties *)

(** The number of edges on the longest path from a node down to a leaf. *)
Fixpoint height (n : BVHNode) : nat :=
  match n with
  | mkBVHNode _ _ _ _ None None => 0
  | mkBVHNode _ _ _ _ l r =>
      S (match l with Some x => height x | None => 0 end
         `max` match r with Some x => height x | None => 0 end)
  end.

(** The triangle lists of the leaves, from left to right. *)
Fixpoint leaf_triangles (n : BVHNode) : list tri_ptr :=
  match n with
  | mkBVHNode _ _ _ ts None None => ts
  | mkBVHNode _ _ _ _ l r =>
      match l with Some x => leaf_triangles x | None => [] end
      ++ match r with Some x => leaf_triangles x | None => [] end
  end.

(** [c] is the coordinate along [ax] of a vertex of a triangle of [ts]. *)
Definition vertex_coord (mesh : tri_ptr -> Triangle) (ts : list tri_ptr)
           (ax : axis) (c : Q) : Prop :=
  exists t v, t ∈ ts /\ v ∈ getVertices (mesh t) /\ c = coord ax v.

(** The least and the greatest coordinate of a triangle along an axis, and
    the midpoint of this extent. *)
Definition extent_min (mesh : tri_ptr -> Triangle) (ax : axis)
           (t : tri_ptr) : Q :=
  Coord.std_min3 (coord ax (v1 (mesh t))) (coord ax (v2 (mesh t)))
                 (coord ax (v3 (mesh t))).
Definition extent_max (mesh : tri_ptr -> Triangle) (ax : axis)
           (t : tri_ptr) : Q :=
  Coord.std_max3 (coord ax (v1 (mesh t))) (coord ax (v2 (mesh t)))
                 (coord ax (v3 (mesh t))).
Definition extent_midpoint (mesh : tri_ptr -> Triangle) (ax : axis)
           (t : tri_ptr) : Q :=
  (extent_min mesh ax t + extent_max mesh ax t) / 2.

Section RunVocabulary.
Variable mesh : tri_ptr -> Triangle.
Variable prim : Triangle -> mat4 -> Triangle -> mat4 -> bool.
Variables first_matrix second_matrix : mat4.

(** What a run on [(a, b)] may add: marks on the two nodes of a pair whose
    boxes overlap, and calls of the primitive on triangles of two such nodes
    that pass the leaf test. *)
Definition justified (a b : BVHNode) (e : flags) : Prop :=
  (forall n, n ∈ node_collision e ->
     exists x y, x ∈ nodes a /\ y ∈ nodes b
                 /\ boxes_separated first_matrix second_matrix
                      (get_min x) (get_max x) (get_min y) (get_max y) = false
                 /\ (n = addr x \/ n = addr y))
  /\ (forall c, c ∈ calls e ->
        exists x y, x ∈ nodes a /\ y ∈ nodes b
                    /\ boxes_separated first_matrix second_matrix
                         (get_min x) (get_max x) (get_min y) (get_max y)
                       = false
                    /\ left_absent x = true /\ left_absent y = true
                    /\ call_first c ∈ get_triangles x
                    /\ call_second c ∈ get_triangles y
                    /\ call_first_matrix c = first_matrix
                    /\ call_second_matrix c = second_matrix).

(** [s'] is [s] with a sound and justified amount added. *)
Definition run_ok (a b : BVHNode) (s s' : flags) : Prop :=
  exists e, s' = add_flags e s
            /\ sound mesh prim first_matrix second_matrix e
            /\ justified a b e.

(** The same node flags and the same triangle flags. *)
Definition same_flags (e e' : flags) : Prop :=
  node_collision e' = node_collision e /\ tri_collision e' = tri_collision e.

(** A run on [(x, y)] from no flags and the run with the two sides exchanged
    set the same flags. *)
Definition swaps (x y : BVHNode) : Prop :=
  forall e, test_collision mesh prim x first_matrix y second_matrix no_flags
            = Some e ->
    exists e', test_collision mesh prim y second_matrix x first_matrix no_flags
               = Some e'
               /\ same_flags e e'.
End RunVocabulary.

(** ** Sample inputs *)

(** Triangle [p] has its first vertex at [x = p] and spans half a unit along
    x and y. *)
Definition demo_mesh (p : tri_ptr) : Triangle :=
  let k := inject_Z (Zpos p) in
  mkTriangle (mkvec4 k 0 0 1) (mkvec4 (k + (1 # 2)) 0 0 1)
             (mkvec4 k (1 # 2) 0 1).

Definition demo_empty_node : BVHNode :=
  mkBVHNode 1%positive (mkvec4 0 0 0 0) (mkvec4 0 0 0 0) [] None None.

(** The tree over triangles 1 to 4, built with [max_depth = 1] on a heap
    without nodes: a root and two leaves, at addresses 1, 2 and 3. *)
Definition demo_tree : BVHNode :=
  Eval vm_compute in
    match construct demo_mesh 1 [1; 2; 3; 4]%positive 1 1 with
    | Done root => root
    | _ => demo_empty_node
    end.

Definition demo_left : BVHNode :=
  Eval vm_compute in default demo_empty_node (get_left demo_tree).
Definition demo_right : BVHNode :=
  Eval vm_compute in default demo_empty_node (get_right demo_tree).

(** A second tree, over triangles 5 and 6, built next with [max_depth = 0]:
    a single leaf at address 4. *)
Definition demo_other : BVHNode :=
  Eval vm_compute in
    match construct_at demo_mesh 1 [5; 6]%positive 0 1 4%positive with
    | Done (root, _) => root
    | _ => demo_empty_node
    end.

(** A stand-in for the primitive: two triangles meet when their first
    vertices have the same world-space x. *)
Definition demo_intersection (t1 : Triangle) (m1 : mat4) (t2 : Triangle)
           (m2 : mat4) : bool :=
  Qeq_bool (vx (mat_mul_vec m1 (v1 t1))) (vx (mat_mul_vec m2 (v1 t2))).

(** The flags after testing [demo_tree] against [demo_other] moved two units
    towards it, starting from no flag set. *)
Definition demo_run : flags :=
  Eval vm_compute in
    default no_flags
      (test_collision demo_mesh demo_intersection demo_tree mat_identity
                      demo_other (mat_translate (-2) 0 0) no_flags).

(** The flags after a further run, of the left leaf of [demo_tree] against
    [demo_other] moved four units towards it, started from [demo_run]. *)
Definition demo_run_both : flags :=
  Eval vm_compute in
    default no_flags
      (test_collision demo_mesh demo_intersection demo_left mat_identity
                      demo_other (mat_translate (-4) 0 0) demo_run).

(** Two triangles far from the origin: triangle [p] has its first vertex at
    [x = 2^127 + (p - 1) * 2^126] and spans [2^104] along x.  All these
    coordinates are binary32 numbers. *)
Definition demo_far_mesh (p : tri_ptr) : Triangle :=
  let k := inject_Z (2 ^ 127 + (Zpos p - 1) * 2 ^ 126) in
  mkTriangle (mkvec4 k 0 0 1) (mkvec4 (k + inject_Z (2 ^ 104)) 0 0 1)
             (mkvec4 k (1 # 2) 0 1).

(** ** Basic facts *)

Module CoordFacts.
Import Coord.

Lemma le_iff a b : le a b = true <-> a <= b.
Proof. apply Qle_bool_iff. Qed.

Lemma lt_iff a b : lt a b = true <-> a < b.
Proof.
  unfold lt. rewrite negb_true_iff, <- not_true_iff_false, Qle_bool_iff.
  split; [apply Qnot_le_lt | apply Qlt_not_le].
Qed.

Lemma lt_false_iff a b : lt a b = false <-> b <= a.
Proof.
  unfold lt. rewrite negb_false_iff. apply Qle_bool_iff.
Qed.

Lemma ge_iff a b : ge a b = true <-> b <= a.
Proof. apply le_iff. Qed.

Lemma le_false_iff a b : le a b = false <-> b < a.
Proof.
  rewrite <- lt_iff. unfold lt, le. destruct (Qle_bool a b); simpl; intuition.
Qed.

Lemma std_min_l a b : std_min a b <= a.
Proof.
  unfold std_min. destruct (lt b a) eqn:E.
  - apply lt_iff in E. by apply Qlt_le_weak.
  - apply Qle_refl.
Qed.

Lemma std_min_r a b : std_min a b <= b.
Proof.
  unfold std_min. destruct (lt b a) eqn:E.
  - apply Qle_refl.
  - by apply lt_false_iff in E.
Qed.

Lemma std_max_l a b : a <= std_max a b.
Proof.
  unfold std_max. destruct (lt a b) eqn:E.
  - apply lt_iff in E. by apply Qlt_le_weak.
  - apply Qle_refl.
Qed.

Lemma std_max_r a b : b <= std_max a b.
Proof.
  unfold std_max. destruct (lt a b) eqn:E.
  - apply Qle_refl.
  - by apply lt_false_iff in E.
Qed.

End CoordFacts.

(** ** Facts about the [float] arithmetic *)

Module FloatFacts.
Import Float.

Lemma nearest_even_comp x y : x == y -> nearest_even x = nearest_even y.
Proof.
  intros E. unfold nearest_even. rewrite (Qfloor_comp _ _ E).
  assert (Ec : ((x - inject_Z (Qfloor y)) ?= (1 # 2))
               = ((y - inject_Z (Qfloor y)) ?= (1 # 2))).
  { apply Qcompare_comp; [|reflexivity]. by rewrite E. }
  by rewrite Ec.
Qed.

Lemma nearest_even_cases x :
  (nearest_even x = Qfloor x /\ x - inject_Z (Qfloor x) <= 1 # 2)
  \/ (nearest_even x = (Qfloor x + 1)%Z /\ 1 # 2 <= x - inject_Z (Qfloor x)).
Proof.
  unfold nearest_even.
  destruct (Qcompare_spec (x - inject_Z (Qfloor x)) (1 # 2)) as [E|E|E].
  - destruct (Z.even (Qfloor x)); [left|right]; split; try done; lra.
  - left. split; [done|lra].
  - right. split; [done|lra].
Qed.

Lemma nearest_even_le_int x j : x <= inject_Z j -> (nearest_even x <= j)%Z.
Proof.
  intros H. pose proof (Qfloor_le x) as Hf.
  assert (Hfj : (Qfloor x <= j)%Z).
  { rewrite <- (Qfloor_Z j). by apply Qfloor_resp_le. }
  destruct (nearest_even_cases x) as [[-> _] | [-> Hh]]; [done|].
  assert (inject_Z (Qfloor x) < inject_Z j) by lra.
  rewrite <- Zlt_Qlt in H0. lia.
Qed.

Lemma nearest_even_ge_int x j : inject_Z j <= x -> (j <= nearest_even x)%Z.
Proof.
  intros H.
  assert (Hfj : (j <= Qfloor x)%Z).
  { rewrite <- (Qfloor_Z j). by apply Qfloor_resp_le. }
  destruct (nearest_even_cases x) as [[-> _] | [-> _]]; lia.
Qed.

Lemma nearest_even_mono x y : x <= y -> (nearest_even x <= nearest_even y)%Z.
Proof.
  intros H. pose proof (Qfloor_resp_le _ _ H) as Hf.
  destruct (Z.eq_dec (Qfloor x) (Qfloor y)) as [E|E].
  - unfold nearest_even. rewrite E.
    destruct (Qcompare_spec (x - inject_Z (Qfloor y)) (1 # 2)) as [Ex|Ex|Ex];
      destruct (Qcompare_spec (y - inject_Z (Qfloor y)) (1 # 2)) as [Ey|Ey|Ey];
      try lra; destruct (Z.even (Qfloor y)); lia.
  - assert (inject_Z (Qfloor x + 1) <= y).
    { pose proof (Qfloor_le y).
      assert (inject_Z (Qfloor x + 1) <= inject_Z (Qfloor y))
        by (rewrite <- Zle_Qle; lia).
      lra. }
    apply nearest_even_ge_int in H0.
    destruct (nearest_even_cases x) as [[-> _] | [-> _]]; lia.
Qed.

Lemma nearest_even_nonneg x : 0 <= x -> (0 <= nearest_even x)%Z.
Proof. intros H. by apply (nearest_even_ge_int x 0). Qed.

Lemma pow2_pos k : (0 < 2 ^ k)%Z -> 0 < inject_Z (2 ^ k).
Proof. intros H. by rewrite <- (Zlt_Qlt 0). Qed.

Lemma to_grid_mono k s1 s2 :
  (0 <= k)%Z -> s1 <= s2 -> (to_grid k s1 <= to_grid k s2)%Z.
Proof.
  intros Hk H. unfold to_grid.
  assert (Hp : (0 < 2 ^ k)%Z) by (apply Z.pow_pos_nonneg; lia).
  apply Z.mul_le_mono_nonneg_r; [lia|].
  apply nearest_even_mono.
  apply Qmult_le_compat_r; [done|].
  apply Qlt_le_weak, Qinv_lt_0_compat. by apply pow2_pos.
Qed.

Lemma div_grid k j :
  (0 <= k)%Z -> inject_Z (j * 2 ^ k) / inject_Z (2 ^ k) == inject_Z j.
Proof.
  intros Hk. assert (Hp : (0 < 2 ^ k)%Z) by (apply Z.pow_pos_nonneg; lia).
  rewrite inject_Z_mult. field. apply pow2_pos in Hp. lra.
Qed.

Lemma to_grid_le k s j :
  (0 <= k)%Z -> s <= inject_Z (j * 2 ^ k) -> (to_grid k s <= j * 2 ^ k)%Z.
Proof.
  intros Hk H. unfold to_grid.
  assert (Hp : (0 < 2 ^ k)%Z) by (apply Z.pow_pos_nonneg; lia).
  apply Z.mul_le_mono_nonneg_r; [lia|].
  apply nearest_even_le_int. rewrite <- (div_grid k j Hk).
  apply Qmult_le_compat_r; [done|].
  apply Qlt_le_weak, Qinv_lt_0_compat. by apply pow2_pos.
Qed.

Lemma to_grid_ge k s j :
  (0 <= k)%Z -> inject_Z (j * 2 ^ k) <= s -> (j * 2 ^ k <= to_grid k s)%Z.
Proof.
  intros Hk H. unfold to_grid.
  assert (Hp : (0 < 2 ^ k)%Z) by (apply Z.pow_pos_nonneg; lia).
  apply Z.mul_le_mono_nonneg_r; [lia|].
  apply nearest_even_ge_int. rewrite <- (div_grid k j Hk).
  apply Qmult_le_compat_r; [done|].
  apply Qlt_le_weak, Qinv_lt_0_compat. by apply pow2_pos.
Qed.

Lemma ulp_exp_nonneg n : (0 <= ulp_exp n)%Z.
Proof. unfold ulp_exp. lia. Qed.

Lemma ulp_exp_mono n1 n2 : (n1 <= n2)%Z -> (ulp_exp n1 <= ulp_exp n2)%Z.
Proof.
  intros H. unfold ulp_exp. pose proof (Z.log2_le_mono _ _ H). lia.
Qed.

Lemma round_mag_grid q :
  round_mag q = to_grid (ulp_exp (Qfloor (q * inject_Z (2 ^ 149))))
                        (q * inject_Z (2 ^ 149)).
Proof. reflexivity. Qed.

Lemma round_mag_mono q1 q2 :
  0 <= q1 -> q1 <= q2 -> (round_mag q1 <= round_mag q2)%Z.
Proof.
  intros H0 H. rewrite !round_mag_grid.
  set (s1 := q1 * inject_Z (2 ^ 149)). set (s2 := q2 * inject_Z (2 ^ 149)).
  assert (Hs : s1 <= s2).
  { apply Qmult_le_compat_r; [done|]. by rewrite <- (Zle_Qle 0). }
  assert (Hs1 : 0 <= s1).
  { apply Qmult_le_0_compat; [done|]. by rewrite <- (Zle_Qle 0). }
  set (n1 := Qfloor s1). set (n2 := Qfloor s2).
  assert (Hn : (n1 <= n2)%Z) by by apply Qfloor_resp_le.
  assert (Hn1 : (0 <= n1)%Z).
  { rewrite <- (Qfloor_Z 0). by apply Qfloor_resp_le. }
  pose proof (ulp_exp_mono _ _ Hn) as Hk.
  pose proof (ulp_exp_nonneg n1) as Hk1.
  destruct (Z.eq_dec (ulp_exp n1) (ulp_exp n2)) as [E|E].
  - rewrite E. apply to_grid_mono; [lia|done].
  - (* the larger exponent is that of a normal number *)
    assert (Hk2 : ulp_exp n2 = (Z.log2 n2 - 23)%Z)
      by (unfold ulp_exp in *; lia).
    assert (HL : (Z.log2 n1 < Z.log2 n2)%Z) by (unfold ulp_exp in *; lia).
    assert (Hn2 : (0 < n2)%Z).
    { destruct (Z.le_gt_cases n2 0) as [Hle|]; [|done].
      rewrite (Z.log2_nonpos n2 Hle) in HL.
      pose proof (Z.log2_nonneg n1). lia. }
    set (L := Z.log2 n2) in *.
    assert (Ht2 : (2 ^ L <= n2)%Z) by (apply Z.log2_spec; lia).
    assert (Ht1 : (n1 + 1 <= 2 ^ L)%Z).
    { destruct (Z.eq_dec n1 0%Z) as [E0|E0].
      - assert ((0 < 2 ^ L)%Z) by (apply Z.pow_pos_nonneg; lia). lia.
      - assert ((n1 < 2 ^ Z.succ (Z.log2 n1))%Z) by (apply Z.log2_spec; lia).
        assert ((2 ^ Z.succ (Z.log2 n1) <= 2 ^ L)%Z)
          by (apply Z.pow_le_mono_r; lia).
        lia. }
    assert (Hg : forall k, (0 <= k <= L)%Z ->
                           (2 ^ L = 2 ^ (L - k) * 2 ^ k)%Z).
    { intros k Hk'. rewrite <- Z.pow_add_r by lia. f_equal. lia. }
    transitivity (2 ^ L)%Z.
    + rewrite (Hg (ulp_exp n1)) by lia. apply to_grid_le; [lia|].
      rewrite <- Hg by lia.
      pose proof (Qlt_floor s1). fold n1 in H1.
      assert (inject_Z (n1 + 1) <= inject_Z (2 ^ L)) by by rewrite <- Zle_Qle.
      lra.
    + rewrite (Hg (ulp_exp n2)) at 1 by lia. apply to_grid_ge; [lia|].
      rewrite <- Hg by lia.
      pose proof (Qfloor_le s2). fold n2 in H1.
      assert (inject_Z (2 ^ L) <= inject_Z n2) by by rewrite <- Zle_Qle.
      lra.
Qed.

Lemma round_mag_nonneg q : 0 <= q -> (0 <= round_mag q)%Z.
Proof.
  intros H. unfold round_mag, to_grid.
  set (k := ulp_exp _).
  assert (Hp : (0 < 2 ^ k)%Z)
    by (apply Z.pow_pos_nonneg; [lia | apply ulp_exp_nonneg]).
  apply Z.mul_nonneg_nonneg; [|lia].
  apply nearest_even_nonneg.
  apply Qmult_le_0_compat.
  - apply Qmult_le_0_compat; [done|]. by rewrite <- (Zle_Qle 0).
  - apply Qlt_le_weak, Qinv_lt_0_compat. by apply pow2_pos.
Qed.

Lemma round_mag_comp q1 q2 : q1 == q2 -> round_mag q1 = round_mag q2.
Proof.
  intros E. unfold round_mag, to_grid.
  assert (E1 : q1 * inject_Z (2 ^ 149) == q2 * inject_Z (2 ^ 149))
    by by rewrite E.
  rewrite (Qfloor_comp _ _ E1). f_equal.
  apply nearest_even_comp. by rewrite E1.
Qed.

Lemma round_comp q1 q2 : q1 == q2 -> round q1 = round q2.
Proof.
  intros E. unfold round.
  assert (Qle_bool 0 q1 = Qle_bool 0 q2) as ->.
  { apply eq_true_iff_eq. rewrite !Qle_bool_iff. by rewrite E. }
  rewrite (round_mag_comp _ _ E).
  assert (E' : - q1 == - q2) by by rewrite E.
  by rewrite (round_mag_comp _ _ E').
Qed.


Lemma mag_value_mono r1 r2 : (r1 <= r2)%Z -> mag_value r1 <= mag_value r2.
Proof.
  intros H. unfold mag_value. rewrite !Qred_correct.
  apply Qmult_le_compat_r; [by rewrite <- Zle_Qle|].
  apply Qlt_le_weak, Qinv_lt_0_compat. by rewrite <- (Zlt_Qlt 0).
Qed.

Lemma mag_value_nonneg r : (0 <= r)%Z -> 0 <= mag_value r.
Proof.
  intros H. unfold mag_value. rewrite Qred_correct.
  apply Qmult_le_0_compat; [by rewrite <- (Zle_Qle 0)|].
  apply Qlt_le_weak, Qinv_lt_0_compat. by rewrite <- (Zlt_Qlt 0).
Qed.

Lemma of_mag_pos_mono r1 r2 :
  (r1 <= r2)%Z -> le (of_mag false r1) (of_mag false r2) = true.
Proof.
  intros H. unfold of_mag. fold (mag_value r1) (mag_value r2).
  destruct (Z.leb_spec (2 ^ 277) r1), (Z.leb_spec (2 ^ 277) r2);
    cbn [le]; try done; [lia|].
  apply Qle_bool_iff. by apply mag_value_mono.
Qed.

Lemma of_mag_neg_mono r1 r2 :
  (r1 <= r2)%Z -> le (of_mag true r2) (of_mag true r1) = true.
Proof.
  intros H. unfold of_mag. fold (mag_value r1) (mag_value r2).
  destruct (Z.leb_spec (2 ^ 277) r1), (Z.leb_spec (2 ^ 277) r2);
    cbn [le]; try done; [lia|].
  apply Qle_bool_iff. pose proof (mag_value_mono _ _ H). lra.
Qed.

Lemma of_mag_neg_pos r1 r2 :
  (0 <= r1)%Z -> (0 <= r2)%Z -> le (of_mag true r1) (of_mag false r2) = true.
Proof.
  intros H1 H2. unfold of_mag. fold (mag_value r1) (mag_value r2).
  destruct (Z.leb_spec (2 ^ 277) r1), (Z.leb_spec (2 ^ 277) r2);
    cbn [le]; try done.
  apply Qle_bool_iff.
  pose proof (mag_value_nonneg _ H1). pose proof (mag_value_nonneg _ H2). lra.
Qed.

(** Rounding never yields NaN, and keeps the order. *)
Lemma round_not_NaN q : round q <> NaN.
Proof.
  unfold round, of_mag.
  destruct (Qle_bool 0 q), (2 ^ 277 <=? _)%Z; discriminate.
Qed.

Lemma round_mono q1 q2 : q1 <= q2 -> le (round q1) (round q2) = true.
Proof.
  intros H. unfold round.
  destruct (Qle_bool 0 q1) eqn:E1, (Qle_bool 0 q2) eqn:E2.
  - apply Qle_bool_iff in E1. apply of_mag_pos_mono. by apply round_mag_mono.
  - apply Qle_bool_iff in E1.
    assert (~ 0 <= q2) by (rewrite <- Qle_bool_iff; congruence). lra.
  - assert (~ 0 <= q1) by (rewrite <- Qle_bool_iff; congruence).
    apply Qle_bool_iff in E2.
    apply of_mag_neg_pos; apply round_mag_nonneg; lra.
  - assert (~ 0 <= q1) by (rewrite <- Qle_bool_iff; congruence).
    assert (~ 0 <= q2) by (rewrite <- Qle_bool_iff; congruence).
    apply of_mag_neg_mono. apply round_mag_mono; lra.
Qed.

Lemma lt_round_inv q1 q2 : lt (round q1) (round q2) = true -> q1 < q2.
Proof.
  intros H. apply Qnot_le_lt. intros Hle.
  apply round_mono in Hle. unfold lt in H.
  destruct (round q1), (round q2); cbn in *; try done;
    by rewrite Hle in H.
Qed.

Lemma Qabs_nonneg_eq v : 0 <= v -> Qabs v = v.
Proof.
  destruct v as [n d]. unfold Qle. cbn. intros H.
  f_equal. apply Z.abs_eq. lia.
Qed.

Lemma Qabs_opp_nonneg_eq v : 0 <= v -> Qabs (- v) = v.
Proof.
  destruct v as [n d]. unfold Qle. cbn. intros H.
  f_equal. rewrite Z.abs_opp. apply Z.abs_eq. lia.
Qed.

(** [|fl(d)|] is the rounded magnitude of [d]. *)
Lemma abs_round d : abs (round d) = of_mag false (round_mag (Qabs d)).
Proof.
  unfold round.
  destruct (Qle_bool 0 d) eqn:E.
  - apply Qle_bool_iff in E.
    rewrite (round_mag_comp (Qabs d) d) by by apply Qabs_pos.
    pose proof (round_mag_nonneg d E) as Hr.
    unfold of_mag. fold (mag_value (round_mag d)).
    destruct (2 ^ 277 <=? round_mag d)%Z; [done|].
    cbn [abs]. f_equal. by apply Qabs_nonneg_eq, mag_value_nonneg.
  - assert (Hd : ~ 0 <= d) by (rewrite <- Qle_bool_iff; congruence).
    rewrite (round_mag_comp (Qabs d) (- d)) by (apply Qabs_neg; lra).
    assert (Hr : (0 <= round_mag (- d))%Z) by (apply round_mag_nonneg; lra).
    unfold of_mag. fold (mag_value (round_mag (- d))).
    destruct (2 ^ 277 <=? round_mag (- d))%Z; [done|].
    cbn [abs]. f_equal. by apply Qabs_opp_nonneg_eq, mag_value_nonneg.
Qed.

Lemma abs_round_mono d1 d2 :
  Qabs d1 <= Qabs d2 -> le (abs (round d1)) (abs (round d2)) = true.
Proof.
  intros H. rewrite !abs_round. apply of_mag_pos_mono.
  apply round_mag_mono; [apply Qabs_nonneg | done].
Qed.

Lemma abs_round_cases d :
  abs (round d) = PosInf \/ exists v, abs (round d) = Finite v /\ 0 <= v.
Proof.
  rewrite abs_round. unfold of_mag.
  destruct (2 ^ 277 <=? _)%Z; [by left|right].
  eexists. split; [done|].
  apply mag_value_nonneg, round_mag_nonneg, Qabs_nonneg.
Qed.

Lemma lt_abs_round_inv d1 d2 :
  lt (abs (round d1)) (abs (round d2)) = true -> Qabs d1 < Qabs d2.
Proof.
  intros H. apply Qnot_le_lt. intros Hle.
  apply abs_round_mono in Hle. unfold lt in H.
  destruct (abs (round d1)), (abs (round d2)); cbn in *; try done;
    by rewrite Hle in H.
Qed.

(** On binary32 numbers the comparison of the rounded values is the
    comparison of the values. *)
Lemma is_exact_round q :
  is_exact q = true -> exists v, round q = Finite v /\ v == q.
Proof.
  unfold is_exact. destruct (round q) as [v| | |]; try done.
  intros H. exists v. split; [done|]. by apply Qeq_bool_iff.
Qed.

Lemma le_round_exact q1 q2 :
  is_exact q1 = true -> is_exact q2 = true ->
  le (round q1) (round q2) = true <-> q1 <= q2.
Proof.
  intros (v1 & -> & E1)%is_exact_round (v2 & -> & E2)%is_exact_round.
  cbn [le]. rewrite Qle_bool_iff. by rewrite E1, E2.
Qed.

End FloatFacts.


Create HintDb coord.
#[global] Hint Resolve CoordFacts.std_min_l CoordFacts.std_min_r
  CoordFacts.std_max_l CoordFacts.std_max_r Qle_refl Qeq_refl : coord.

(** Case analysis on a comparison of the source; the outcome is recorded as a
    fact about the order of the rationals. *)
Ltac case_lt a b :=
  let E := fresh "E" in
  destruct (Coord.lt a b) eqn:E;
  [apply CoordFacts.lt_iff in E | apply CoordFacts.lt_false_iff in E].
(** ** The tree builder: facts *)

Section ConstructFacts.
Variable mesh : tri_ptr -> Triangle.
Variable fresh_depth : Z.

Abbreviation on_left := (on_left mesh).

Lemma split_step_fold ax c ts l0 r0 :
  fold_left (split_step mesh ax c) ts (l0, r0)
  = (l0 ++ filter (on_left ax c) ts,
     r0 ++ filter (fun t => ~ on_left ax c t) ts).
Proof.
  revert l0 r0. induction ts as [|t ts IH]; intros l0 r0; cbn [fold_left].
  - by rewrite !app_nil_r.
  - unfold split_step at 2.
    destruct (triangle_goes_left mesh ax c t) eqn:E; rewrite IH.
    + rewrite filter_cons_True by done.
      rewrite filter_cons_False by (intros H; by apply H).
      by rewrite <- app_assoc.
    + rewrite filter_cons_False by (unfold on_left; congruence).
      rewrite filter_cons_True by (unfold on_left; congruence).
      by rewrite <- app_assoc.
Qed.

Lemma split_triangles_filter ax c ts :
  split_triangles mesh ax c ts
  = (filter (on_left ax c) ts, filter (fun t => ~ on_left ax c t) ts).
Proof. unfold split_triangles. by rewrite split_step_fold. Qed.

Lemma split_triangles_perm ax c ts l r :
  split_triangles mesh ax c ts = (l, r) -> l ++ r ≡ₚ ts.
Proof.
  rewrite split_triangles_filter. intros [= <- <-].
  apply filter_app_complement.
Qed.

Lemma split_triangles_length ax c ts l r :
  split_triangles mesh ax c ts = (l, r) ->
  (length l + length r = length ts)%nat.
Proof.
  intros H. apply split_triangles_perm in H.
  by rewrite <- (Permutation_length H), length_app.
Qed.

Lemma split_triangles_left ax c ts l r t :
  split_triangles mesh ax c ts = (l, r) ->
  t ∈ l <-> t ∈ ts /\ triangle_goes_left mesh ax c t = true.
Proof.
  rewrite split_triangles_filter. intros [= <- <-].
  rewrite list_elem_of_filter. unfold on_left. tauto.
Qed.

Lemma split_triangles_right ax c ts l r t :
  split_triangles mesh ax c ts = (l, r) ->
  t ∈ r <-> t ∈ ts /\ triangle_goes_left mesh ax c t = false.
Proof.
  rewrite split_triangles_filter. intros [= <- <-].
  rewrite list_elem_of_filter. unfold on_left.
  rewrite not_true_iff_false. tauto.
Qed.

Lemma may_split_true l r md :
  may_split fresh_depth l r md = true <->
  l <> [] /\ r <> [] /\ (fresh_depth <= md)%Z.
Proof.
  unfold may_split. rewrite !andb_true_iff, !Nat.ltb_lt, Z.leb_le.
  destruct l, r; simpl; split; intros H; repeat split;
    try congruence; try lia; destruct H as (?&?&?); try lia; try congruence.
Qed.

Lemma bounding_box_Done ts :
  ts <> [] -> exists mn mx, bounding_box mesh ts = Done (mn, mx).
Proof.
  destruct ts as [|t ts]; [done|]. intros _. simpl.
  match goal with |- context [widen_all ?m ?l ?b] =>
    destruct (widen_all m l b) as [mn mx] end. eauto.
Qed.

Lemma bounding_box_nonempty ts box :
  bounding_box mesh ts = Done box -> ts <> [].
Proof. by destruct ts. Qed.

(** One step of the recursion, read backwards. *)
Lemma construct_rec_inv fuel ts md ms next root next' :
  construct_rec mesh fresh_depth (S fuel) ts md ms next = Done (root, next') ->
  exists mn mx,
    bounding_box mesh ts = Done (mn, mx)
    /\ let ax := fst (longest_axis mn mx) in
       let c := snd (longest_axis mn mx) in
       let l := fst (split_triangles mesh ax c ts) in
       let r := snd (split_triangles mesh ax c ts) in
       (may_split fresh_depth l r md = false
        /\ root = mkBVHNode next mn mx ts None None
        /\ next' = Pos.succ next)
       \/ (may_split fresh_depth l r md = true
           /\ exists ln rn mid,
               construct_rec mesh fresh_depth fuel l
                 (child_depth l md ms) ms (Pos.succ next) = Done (ln, mid)
               /\ construct_rec mesh fresh_depth fuel r
                    (child_depth r md ms) ms mid = Done (rn, next')
               /\ root = mkBVHNode next mn mx ts (Some ln) (Some rn)).
Proof.
  cbn [construct_rec].
  destruct (bounding_box mesh ts) as [[mn mx]| |]; cbn [obind]; [|done..].
  intros H. exists mn, mx. split; [done|].
  destruct (longest_axis mn mx) as [ax c]. cbn [fst snd].
  destruct (split_triangles mesh ax c ts) as [l r]. cbn [fst snd].
  destruct (may_split fresh_depth l r md).
  - right. split; [done|].
    destruct (construct_rec mesh fresh_depth fuel l _ ms _)
      as [[ln mid]| |] eqn:Hl; cbn [obind] in H; [|done..].
    destruct (construct_rec mesh fresh_depth fuel r _ ms _)
      as [[rn fin]| |] eqn:Hr; cbn [obind] in H; [|done..].
    injection H as <- <-. exists ln, rn, mid. auto.
  - left. injection H as <- <-. auto.
Qed.

Lemma construct_rec_O ts md ms next root next' :
  construct_rec mesh fresh_depth O ts md ms next <> Done (root, next').
Proof. by destruct ts. Qed.

(** Every node of a tree that [construct] returns was set up by the code of
    one call. *)
Lemma construct_rec_built fuel :
  forall ts md ms next root next',
    construct_rec mesh fresh_depth fuel ts md ms next = Done (root, next') ->
    get_triangles root = ts
    /\ forall m, m ∈ nodes root -> built_node mesh m.
Proof.
  induction fuel as [|fuel IH]; intros ts md ms next root next' H.
  - by apply construct_rec_O in H.
  - apply construct_rec_inv in H as (mn & mx & Hbox & Hcase).
    cbn zeta in Hcase.
    destruct Hcase as [(_ & -> & _) | (Hsplit & ln & rn & mid & Hl & Hr & ->)].
    + split; [done|]. intros m Hm. cbn in Hm.
      apply list_elem_of_singleton in Hm. subst m. split; [done|]. by left.
    + apply IH in Hl as [Hlt Hln]. apply IH in Hr as [Hrt Hrn].
      split; [done|]. intros m Hm. cbn [nodes] in Hm.
      apply elem_of_cons in Hm as [-> | Hm].
      * split; [done|]. right. exists ln, rn.
        cbn [get_left get_right get_min get_max get_triangles].
        apply may_split_true in Hsplit as (Hl0 & Hr0 & _).
        rewrite Hlt, Hrt. repeat split; try done.
        apply surjective_pairing.
      * apply elem_of_app in Hm as [Hm | Hm]; auto.
Qed.

Lemma construct_rec_total fuel :
  forall ts md ms next,
    ts <> [] -> (length ts <= fuel)%nat ->
    exists root next',
      construct_rec mesh fresh_depth fuel ts md ms next = Done (root, next').
Proof.
  induction fuel as [|fuel IH]; intros ts md ms next Hne Hlen.
  - destruct ts; [done | simpl in Hlen; lia].
  - cbn [construct_rec].
    destruct (bounding_box_Done ts Hne) as (mn & mx & ->). cbn [obind].
    destruct (longest_axis mn mx) as [ax c].
    destruct (split_triangles mesh ax c ts) as [l r] eqn:Hs.
    destruct (may_split fresh_depth l r md) eqn:Hm; [|eauto].
    apply may_split_true in Hm as (Hl & Hr & _).
    apply split_triangles_length in Hs.
    assert (0 < length l)%nat by (destruct l; [done | simpl; lia]).
    assert (0 < length r)%nat by (destruct r; [done | simpl; lia]).
    destruct (IH l (child_depth l md ms) ms (Pos.succ next) Hl)
      as (ln & mid & ->); [lia|]. cbn [obind].
    destruct (IH r (child_depth r md ms) ms mid Hr)
      as (rn & fin & ->); [lia|]. cbn [obind]. eauto.
Qed.



(** *** The bounding box *)

Lemma encloses_refl b : encloses b b.
Proof. intros ax. split; apply Qle_refl. Qed.

Lemma encloses_trans a b c : encloses a b -> encloses b c -> encloses a c.
Proof.
  intros H1 H2 ax. destruct (H1 ax), (H2 ax).
  split; eapply Qle_trans; eauto.
Qed.

Lemma inside_encloses outer inner v :
  encloses outer inner -> inside (fst inner) (snd inner) v ->
  inside (fst outer) (snd outer) v.
Proof.
  intros H1 H2 ax. destruct (H1 ax), (H2 ax).
  split; eapply Qle_trans; eauto.
Qed.

Lemma widen_encloses box v : encloses (widen box v) box.
Proof.
  destruct box as [mn mx]. intros []; cbn;
    auto with coord.
Qed.

Lemma widen_inside box v : inside (fst (widen box v)) (snd (widen box v)) v.
Proof.
  destruct box as [mn mx]. intros []; cbn;
    auto with coord.
Qed.

Lemma fold_widen vs : forall box,
  let box' := fold_left widen vs box in
  encloses box' box /\ forall v, v ∈ vs -> inside (fst box') (snd box') v.
Proof.
  induction vs as [|v vs IH]; intros box; cbn [fold_left].
  - split; [apply encloses_refl|]. intros v Hv. by apply elem_of_nil in Hv.
  - destruct (IH (widen box v)) as [Henc Hin]. split.
    + eapply encloses_trans; [exact Henc | apply widen_encloses].
    + intros u Hu. apply elem_of_cons in Hu as [-> | Hu]; [|auto].
      eapply inside_encloses; [exact Henc | apply widen_inside].
Qed.

Lemma widen_all_spec ts : forall box,
  let box' := widen_all mesh ts box in
  encloses box' box
  /\ forall t v, t ∈ ts -> v ∈ getVertices (mesh t) ->
                 inside (fst box') (snd box') v.
Proof.
  unfold widen_all.
  induction ts as [|t ts IH]; intros box; cbn [fold_left].
  - split; [apply encloses_refl|]. intros t v Ht. by apply elem_of_nil in Ht.
  - destruct (fold_widen (getVertices (mesh t)) box) as [Henc1 Hin1].
    destruct (IH (fold_left widen (getVertices (mesh t)) box))
      as [Henc Hin]. split.
    + eapply encloses_trans; eauto.
    + intros u v Hu Hv. apply elem_of_cons in Hu as [-> | Hu]; [|eauto].
      eapply inside_encloses; [exact Henc | by apply Hin1].
Qed.

Lemma bounding_box_inside ts mn mx t v :
  bounding_box mesh ts = Done (mn, mx) ->
  t ∈ ts -> v ∈ getVertices (mesh t) -> inside mn mx v.
Proof.
  destruct ts as [|t0 ts]; [done|]. unfold bounding_box. intros H Ht Hv.
  pose proof (widen_all_spec (t0 :: ts) (v1 (mesh t0), v1 (mesh t0)))
    as [_ Hin].
  assert (widen_all mesh (t0 :: ts) (v1 (mesh t0), v1 (mesh t0)) = (mn, mx))
    as E by congruence.
  rewrite E in Hin. eapply Hin; eauto.
Qed.


(** *** [construct] as a total function *)

Lemma construct_Done_inv ts md ms root :
  construct mesh fresh_depth ts md ms = Done root ->
  exists next',
    construct_rec mesh fresh_depth (length ts) ts md ms 1%positive
    = Done (root, next').
Proof.
  unfold construct, construct_at.
  destruct (construct_rec _ _ _ _ _ _ _) as [[r n]| |]; cbn [obind];
    [|done..].
  intros [= ->]. eauto.
Qed.

Lemma construct_total ts md ms :
  ts <> [] -> exists root, construct mesh fresh_depth ts md ms = Done root.
Proof.
  intros Hne. unfold construct, construct_at.
  destruct (construct_rec_total (length ts) ts md ms 1%positive Hne)
    as (root & next' & ->); [lia|]. cbn. eauto.
Qed.

Lemma construct_empty md ms : construct mesh fresh_depth [] md ms = Throws.
Proof. reflexivity. Qed.

Lemma nodes_self m : m ∈ nodes m.
Proof. destruct m. cbn. apply list_elem_of_here. Qed.

Lemma construct_built ts md ms root m :
  construct mesh fresh_depth ts md ms = Done root ->
  m ∈ nodes root -> built_node mesh m.
Proof.
  intros H Hm. apply construct_Done_inv in H as [next' H].
  apply construct_rec_built in H as [_ H]. auto.
Qed.


(** What the guard of lines 129-130 decides, for the call itself: the node is
    a leaf exactly when the depth test fails or a half is empty. *)
Lemma construct_at_leaf_iff ts md ms next root next' :
  construct_at mesh fresh_depth ts md ms next = Done (root, next') ->
  get_triangles root = ts
  /\ (is_leaf root = true
      <-> (md < fresh_depth)%Z
          \/ fst (split_triangles mesh
                    (fst (longest_axis (get_min root) (get_max root)))
                    (snd (longest_axis (get_min root) (get_max root))) ts)
             = []
          \/ snd (split_triangles mesh
                    (fst (longest_axis (get_min root) (get_max root)))
                    (snd (longest_axis (get_min root) (get_max root))) ts)
             = [])
  /\ (is_leaf root = true -> nodes root = [root]).
Proof.
  unfold construct_at. intros H.
  destruct (length ts) as [|fuel]; [by apply construct_rec_O in H|].
  apply construct_rec_inv in H as (mn & mx & Hbox & Hcase).
  cbn zeta in Hcase.
  destruct Hcase as [(Hsplit & -> & _) | (Hsplit & ln & rn & mid & _ & _ & ->)];
    cbn [get_triangles get_min get_max is_leaf get_left get_right nodes].
  - split; [done|]. split; [|done]. split; [intros _|done].
    apply not_true_iff_false in Hsplit. rewrite may_split_true in Hsplit.
    destruct (fst (split_triangles _ _ _ _)); [tauto|].
    destruct (snd (split_triangles _ _ _ _)); [tauto|].
    left. apply Z.lt_nge. intros Hd. by apply Hsplit.
  - split; [done|]. split; [|done]. split; [done|].
    apply may_split_true in Hsplit as (Hl & Hr & Hd).
    intros [|[|]]; [lia|done..].
Qed.


(** The nodes of the tree occupy the addresses handed out during the call,
    one address per node. *)
Lemma construct_rec_addrs fuel :
  forall ts md ms next root next',
    construct_rec mesh fresh_depth fuel ts md ms next = Done (root, next') ->
    (next < next')%positive
    /\ (forall m, m ∈ nodes root -> (next <= addr m < next')%positive)
    /\ NoDup (map addr (nodes root)).
Proof.
  induction fuel as [|fuel IH]; intros ts md ms next root next' H.
  - by apply construct_rec_O in H.
  - apply construct_rec_inv in H as (mn & mx & Hbox & Hcase).
    cbn zeta in Hcase.
    destruct Hcase as [(_ & -> & ->) | (_ & ln & rn & mid & Hl & Hr & ->)].
    + split; [lia|]. split.
      * intros m Hm. cbn in Hm. apply list_elem_of_singleton in Hm. subst m.
        cbn. lia.
      * cbn. apply NoDup_singleton.
    + apply IH in Hl as (Hl1 & Hl2 & Hl3). apply IH in Hr as (Hr1 & Hr2 & Hr3).
      split; [lia|]. split.
      * intros m Hm. cbn [nodes] in Hm.
        apply elem_of_cons in Hm as [-> | Hm]; [cbn; lia|].
        apply elem_of_app in Hm as [Hm | Hm].
        -- apply Hl2 in Hm. lia.
        -- apply Hr2 in Hm. lia.
      * cbn [nodes map addr]. rewrite map_app. apply NoDup_cons. split.
        -- intros Hin. apply elem_of_app in Hin as [Hin | Hin];
             apply list_elem_of_fmap in Hin as (m & E & Hm).
           ++ apply Hl2 in Hm. lia.
           ++ apply Hr2 in Hm. lia.
        -- apply NoDup_app. split; [done|]. split; [|done].
           intros x Hx1 Hx2.
           apply list_elem_of_fmap in Hx1 as (m1 & -> & Hm1).
           apply list_elem_of_fmap in Hx2 as (m2 & E & Hm2).
           apply Hl2 in Hm1. apply Hr2 in Hm2. lia.
Qed.

Lemma construct_rec_well_formed fuel :
  forall ts md ms next root next',
    construct_rec mesh fresh_depth fuel ts md ms next = Done (root, next') ->
    well_formed root = true.
Proof.
  induction fuel as [|fuel IH]; intros ts md ms next root next' H.
  - by apply construct_rec_O in H.
  - apply construct_rec_inv in H as (mn & mx & Hbox & Hcase).
    cbn zeta in Hcase.
    destruct Hcase as [(_ & -> & _) | (_ & ln & rn & mid & Hl & Hr & ->)].
    + done.
    + cbn. apply IH in Hl, Hr. by rewrite Hl, Hr.
Qed.

Lemma construct_well_formed ts md ms root :
  construct mesh fresh_depth ts md ms = Done root -> well_formed root = true.
Proof.
  intros H. apply construct_Done_inv in H as [next' H].
  by apply construct_rec_well_formed in H.
Qed.

(** *** Claims about the builder *)


(** C3.  At every internal node of a tree returned by [construct], the
    triangle lists of the two children are disjoint, together they hold
    exactly the triangles of the node (as a set, and entry for entry as a
    permutation), so every triangle of the node goes to exactly one child. *)
Theorem construct_children_partition ts md ms root m l r :
  construct mesh fresh_depth ts md ms = Done root ->
  m ∈ nodes root -> get_left m = Some l -> get_right m = Some r ->
  get_triangles l ++ get_triangles r ≡ₚ get_triangles m
  /\ (forall t, t ∈ get_triangles m <->
                t ∈ get_triangles l \/ t ∈ get_triangles r)
  /\ (forall t, t ∈ get_triangles l -> t ∈ get_triangles r -> False).
Proof.
  intros H Hm Hl Hr.
  destruct (construct_built _ _ _ _ _ H Hm) as [_ [[Hn _] | Hc]];
    [congruence|].
  destruct Hc as (l' & r' & Hl' & Hr' & Hs & _).
  assert (l' = l) as -> by congruence. assert (r' = r) as -> by congruence.
  pose proof (split_triangles_perm _ _ _ _ _ Hs) as Hp.
  split; [done|]. split.
  - intros t. rewrite <- Hp, elem_of_app. tauto.
  - intros t Ht1 Ht2.
    apply (split_triangles_left _ _ _ _ _ t Hs) in Ht1 as [_ E1].
    apply (split_triangles_right _ _ _ _ _ t Hs) in Ht2 as [_ E2].
    congruence.
Qed.

(** C4.  At every node of a tree returned by [construct], each vertex of
    each triangle the node refers to lies between the node's [min] and
    [max] corner on the three axes, and the two corners are the bounding
    box computed from the node's own triangle list. *)
Theorem construct_box_contains ts md ms root m t v :
  construct mesh fresh_depth ts md ms = Done root ->
  m ∈ nodes root -> t ∈ get_triangles m -> v ∈ getVertices (mesh t) ->
  inside (get_min m) (get_max m) v
  /\ bounding_box mesh (get_triangles m) = Done (get_min m, get_max m).
Proof.
  intros H Hm Ht Hv.
  destruct (construct_built _ _ _ _ _ H Hm) as [Hbox _].
  split; [|done]. eapply bounding_box_inside; eauto.
Qed.

(** C10.  At every node of a tree returned by [construct], the left child
    is absent exactly when the right child is; hence the leaf test of
    [test_collision], which looks at the left child only, agrees with the
    definition of a leaf as a node without children. *)
Theorem construct_children_both_or_neither ts md ms root m :
  construct mesh fresh_depth ts md ms = Done root ->
  m ∈ nodes root ->
  both_or_neither m /\ left_absent m = is_leaf m.
Proof.
  intros H Hm.
  destruct (construct_built _ _ _ _ _ H Hm)
    as [_ [[Hl Hr] | (l & r & Hl & Hr & _)]];
    unfold both_or_neither, left_absent, is_leaf; rewrite Hl, Hr;
    split; try done; split; congruence.
Qed.


(** *** The split step *)

Lemma std_min3_least a b c : least_of (Coord.std_min3 a b c) a b c.
Proof.
  unfold least_of, Coord.std_min3.
  case_lt b a; [case_lt c b | case_lt c a];
    repeat split; try lra; auto with coord.
Qed.

Lemma std_max3_greatest a b c : greatest_of (Coord.std_max3 a b c) a b c.
Proof.
  unfold greatest_of, Coord.std_max3.
  case_lt a b; [case_lt b c | case_lt a c];
    repeat split; try lra; auto with coord.
Qed.

Lemma least_of_unique m m' a b c :
  least_of m a b c -> least_of m' a b c -> m == m'.
Proof.
  unfold least_of. intros ([|[|]] & ? & ? & ?) ([|[|]] & ? & ? & ?); lra.
Qed.

Lemma greatest_of_unique M M' a b c :
  greatest_of M a b c -> greatest_of M' a b c -> M == M'.
Proof.
  unfold greatest_of. intros ([|[|]] & ? & ? & ?) ([|[|]] & ? & ? & ?); lra.
Qed.

(** The split test against a finite split coordinate, with the comparisons
    of coordinates written out. *)
Lemma goes_left_finite s a b c :
  goes_left (Float.Finite s) a b c
  = if Qle_bool a s && Qle_bool b s && Qle_bool c s then true
    else if negb (Qle_bool a s) && negb (Qle_bool b s) && negb (Qle_bool c s)
         then false
         else Float.ge (Float.round (s - Coord.std_min3 a b c))
                       (Float.round (Coord.std_max3 a b c - s)).
Proof.
  unfold goes_left, Float.gt, Float.lt, Float.le, Float.sub, Float.add,
    Float.neg.
  destruct (Qle_bool a s && Qle_bool b s && Qle_bool c s); [done|].
  destruct (negb (Qle_bool a s) && negb (Qle_bool b s) && negb (Qle_bool c s));
    [done|].
  by destruct (Float.ge _ _).
Qed.

Lemma goes_left_straddle s a b c :
  ~ (a <= s /\ b <= s /\ c <= s) -> ~ (s < a /\ s < b /\ s < c) ->
  goes_left (Float.Finite s) a b c
  = Float.ge (Float.round (s - Coord.std_min3 a b c))
             (Float.round (Coord.std_max3 a b c - s)).
Proof.
  intros Hnl Hnr. rewrite goes_left_finite.
  destruct (Qle_bool a s && Qle_bool b s && Qle_bool c s) eqn:El.
  { exfalso. apply Hnl. rewrite !andb_true_iff, !Qle_bool_iff in El. tauto. }
  destruct (negb (Qle_bool a s) && negb (Qle_bool b s) && negb (Qle_bool c s))
    eqn:Er; [|done].
  exfalso. apply Hnr.
  rewrite !andb_true_iff, !negb_true_iff, <- !not_true_iff_false,
    !Qle_bool_iff in Er.
  destruct Er as [[? ?] ?]. repeat split; by apply Qnot_le_lt.
Qed.

Lemma goes_left_all_left s a b c :
  a <= s -> b <= s -> c <= s -> goes_left (Float.Finite s) a b c = true.
Proof.
  intros Ha Hb Hc. rewrite goes_left_finite.
  apply Qle_bool_iff in Ha, Hb, Hc. by rewrite Ha, Hb, Hc.
Qed.

Lemma goes_left_all_right s a b c :
  s < a -> s < b -> s < c -> goes_left (Float.Finite s) a b c = false.
Proof.
  intros Ha Hb Hc. rewrite goes_left_finite.
  assert (Qle_bool a s = false) as ->
      by (apply not_true_iff_false; rewrite Qle_bool_iff; lra).
  assert (Qle_bool b s = false) as ->
      by (apply not_true_iff_false; rewrite Qle_bool_iff; lra).
  assert (Qle_bool c s = false) as ->
      by (apply not_true_iff_false; rewrite Qle_bool_iff; lra).
  done.
Qed.

(** Against an infinite split coordinate, or NaN, one side takes all. *)
Lemma goes_left_not_finite a b c :
  goes_left Float.PosInf a b c = true
  /\ goes_left Float.NegInf a b c = false
  /\ goes_left Float.NaN a b c = false.
Proof. done. Qed.

(** A triangle that reaches at least as far to the left of the plane as to
    the right goes left: rounding keeps the order of the two differences. *)
Lemma goes_left_exact_overshoot s a b c :
  Coord.std_max3 a b c - s <= s - Coord.std_min3 a b c ->
  goes_left (Float.Finite s) a b c = true.
Proof.
  intros H. rewrite goes_left_finite.
  destruct (Qle_bool a s && Qle_bool b s && Qle_bool c s) eqn:El; [done|].
  destruct (negb (Qle_bool a s) && negb (Qle_bool b s) && negb (Qle_bool c s))
    eqn:Er.
  - exfalso.
    rewrite !andb_true_iff, !negb_true_iff, <- !not_true_iff_false,
      !Qle_bool_iff in Er.
    destruct Er as [[Ha Hb] Hc].
    destruct (std_min3_least a b c) as ([E|[E|E]] & _);
      destruct (std_max3_greatest a b c) as (_ & ? & ? & ?); lra.
  - by apply FloatFacts.round_mono.
Qed.

(** C7.  Against a finite split coordinate, a triangle whose three
    coordinates along the split axis are all [<= split_coord] goes left and
    one whose three coordinates are all [> split_coord] goes right.  Any
    other triangle goes left exactly when
    [split_coord - min >= max - split_coord] holds between the two
    differences as the program computes them, in binary32, [min] and [max]
    being the least and the greatest of its three coordinates, and right
    otherwise.  This is the case whenever the inequality holds between the
    exact differences, and it is equivalent to that inequality when the two
    differences are binary32 numbers.  Against [+infinity] every triangle
    goes left, against [-infinity] every triangle goes right.
    [leftTriangles] and [rightTriangles] hold the triangles of the input
    that go left, respectively right. *)
Theorem split_assigns_by_side :
  (forall splitCoord a b c,
      (a <= splitCoord -> b <= splitCoord -> c <= splitCoord ->
       goes_left (Float.Finite splitCoord) a b c = true)
      /\ (splitCoord < a -> splitCoord < b -> splitCoord < c ->
          goes_left (Float.Finite splitCoord) a b c = false)
      /\ (forall m M,
             ~ (a <= splitCoord /\ b <= splitCoord /\ c <= splitCoord) ->
             ~ (splitCoord < a /\ splitCoord < b /\ splitCoord < c) ->
             least_of m a b c -> greatest_of M a b c ->
             goes_left (Float.Finite splitCoord) a b c
             = Float.ge (Float.sub (Float.Finite splitCoord) (Float.Finite m))
                        (Float.sub (Float.Finite M) (Float.Finite splitCoord))
             /\ (M - splitCoord <= splitCoord - m ->
                 goes_left (Float.Finite splitCoord) a b c = true)
             /\ (Float.is_exact (splitCoord - m) = true ->
                 Float.is_exact (M - splitCoord) = true ->
                 (goes_left (Float.Finite splitCoord) a b c = true
                  <-> M - splitCoord <= splitCoord - m)
                 /\ (goes_left (Float.Finite splitCoord) a b c = false
                     <-> ~ M - splitCoord <= splitCoord - m))))
  /\ (forall a b c,
         goes_left Float.PosInf a b c = true
         /\ goes_left Float.NegInf a b c = false)
  /\ (forall ax splitCoord triangles t,
         (t ∈ fst (split_triangles mesh ax splitCoord triangles)
          <-> t ∈ triangles /\ triangle_goes_left mesh ax splitCoord t = true)
         /\ (t ∈ snd (split_triangles mesh ax splitCoord triangles)
             <-> t ∈ triangles
                 /\ triangle_goes_left mesh ax splitCoord t = false)).
Proof.
  split; [|split].
  - intros s a b c. split; [|split].
    + apply goes_left_all_left.
    + apply goes_left_all_right.
    + intros m M Hnl Hnr Hm HM.
      pose proof (least_of_unique _ _ _ _ _ Hm (std_min3_least a b c)) as Em.
      pose proof (greatest_of_unique _ _ _ _ _ HM (std_max3_greatest a b c))
        as EM.
      assert (E1 : s - m == s - Coord.std_min3 a b c) by by rewrite Em.
      assert (E2 : M - s == Coord.std_max3 a b c - s) by by rewrite EM.
      assert (Hcode :
                goes_left (Float.Finite s) a b c
                = Float.ge (Float.round (s - m)) (Float.round (M - s))).
      { rewrite (goes_left_straddle s a b c Hnl Hnr).
        by rewrite (FloatFacts.round_comp _ _ E1),
          (FloatFacts.round_comp _ _ E2). }
      split; [exact Hcode|]. split.
      * intros H. apply goes_left_exact_overshoot. by rewrite <- E1, <- E2.
      * intros X1 X2. rewrite Hcode. unfold Float.ge.
        rewrite <- not_true_iff_false.
        by rewrite (FloatFacts.le_round_exact _ _ X2 X1).
  - intros a b c. split; apply goes_left_not_finite.
  - intros ax s ts t. split.
    + eapply split_triangles_left, surjective_pairing.
    + eapply split_triangles_right, surjective_pairing.
Qed.

(** *** The split axis *)

(** Case analysis on every comparison of rationals in sight. *)
Ltac split_Qle :=
  repeat match goal with
    | |- context [Qle_bool ?p ?q] =>
        let E := fresh "E" in
        destruct (Qle_bool p q) eqn:E;
        [ apply Qle_bool_iff in E
        | apply not_true_iff_false in E; rewrite Qle_bool_iff in E ]
    | H : context [Qle_bool ?p ?q] |- _ =>
        let E := fresh "E" in
        destruct (Qle_bool p q) eqn:E;
        [ apply Qle_bool_iff in E
        | apply not_true_iff_false in E; rewrite Qle_bool_iff in E ]
    end.

(** The first greatest of three lengths, in the order of lines 57-71. *)
Lemma first_greatest (L : axis -> Float.t) :
  (forall a, L a <> Float.NaN) ->
  let ax :=
    if Float.ge (L AxisX) (L AxisY) && Float.ge (L AxisX) (L AxisZ)
    then AxisX
    else if Float.ge (L AxisY) (L AxisX) && Float.ge (L AxisY) (L AxisZ)
         then AxisY else AxisZ in
  (forall a, Float.le (L a) (L ax) = true)
  /\ (forall a, before a ax -> Float.lt (L a) (L ax) = true)
  /\ ((forall a, Float.le (L a) (L AxisX) = true) -> ax = AxisX).
Proof.
  intros H.
  pose proof (H AxisX) as Hx. pose proof (H AxisY) as Hy.
  pose proof (H AxisZ) as Hz.
  cbn zeta.
  destruct (L AxisX) as [x| | |] eqn:Ex; [| | |done];
    destruct (L AxisY) as [y| | |] eqn:Ey; try done;
    destruct (L AxisZ) as [z| | |] eqn:Ez; try done;
    unfold Float.ge, Float.le; split_Qle; cbn [andb];
    (split; [|split];
     [ intros a; destruct a; rewrite ?Ex, ?Ey, ?Ez; unfold Float.le;
       try done; try (apply Qle_bool_iff; lra); exfalso; lra
     | intros a; destruct a; cbn [before]; try done; intros _;
       rewrite ?Ex, ?Ey, ?Ez; unfold Float.lt, Float.le; try done;
       try (exfalso; lra);
       apply negb_true_iff, not_true_iff_false; rewrite Qle_bool_iff; lra
     | intros Ha; try done;
       pose proof (Ha AxisY) as Hay; pose proof (Ha AxisZ) as Haz;
       rewrite Ey in Hay; rewrite Ez in Haz; cbn [Float.le] in Hay, Haz;
       try done;
       try apply Qle_bool_iff in Hay; try apply Qle_bool_iff in Haz;
       exfalso; lra ]).
Qed.

Lemma edge_length_not_NaN a minPoint maxPoint :
  edge_length a minPoint maxPoint <> Float.NaN.
Proof.
  unfold edge_length, float_length.
  destruct (FloatFacts.abs_round_cases
              (coord a maxPoint - coord a minPoint)) as [E | (v & E & _)];
    unfold Float.sub, Float.add, Float.neg; unfold Qminus in E;
    by rewrite E.
Qed.

Lemma longest_axis_unfold minPoint maxPoint :
  let L a := edge_length a minPoint maxPoint in
  let ax :=
    if Float.ge (L AxisX) (L AxisY) && Float.ge (L AxisX) (L AxisZ)
    then AxisX
    else if Float.ge (L AxisY) (L AxisX) && Float.ge (L AxisY) (L AxisZ)
         then AxisY else AxisZ in
  longest_axis minPoint maxPoint
  = (ax, float_midpoint (coord ax minPoint) (coord ax maxPoint)).
Proof.
  unfold longest_axis, edge_length. cbn [coord].
  destruct (Float.ge _ _ && Float.ge _ _); [done|].
  by destruct (Float.ge _ _ && Float.ge _ _).
Qed.

Lemma longest_axis_spec minPoint maxPoint :
  let ax := fst (longest_axis minPoint maxPoint) in
  let splitCoord := snd (longest_axis minPoint maxPoint) in
  (forall a, Float.le (edge_length a minPoint maxPoint)
                      (edge_length ax minPoint maxPoint) = true)
  /\ (forall a, before a ax ->
                Float.lt (edge_length a minPoint maxPoint)
                         (edge_length ax minPoint maxPoint) = true
                /\ exact_length a minPoint maxPoint
                   < exact_length ax minPoint maxPoint)
  /\ splitCoord = float_midpoint (coord ax minPoint) (coord ax maxPoint)
  /\ ((forall a, exact_length a minPoint maxPoint
                 <= exact_length AxisX minPoint maxPoint) ->
      ax = AxisX)
  /\ (minPoint = maxPoint -> ax = AxisX)
  /\ ((forall a, Float.is_exact (coord a maxPoint - coord a minPoint) = true)
      -> forall a, exact_length a minPoint maxPoint
                   <= exact_length ax minPoint maxPoint)
  /\ (Float.is_exact (coord ax minPoint + coord ax maxPoint) = true ->
      Float.is_exact ((coord ax minPoint + coord ax maxPoint) / 2) = true ->
      exists s, splitCoord = Float.Finite s
                /\ s == (coord ax minPoint + coord ax maxPoint) / 2).
Proof.
  pose proof (longest_axis_unfold minPoint maxPoint) as Hu.
  destruct (first_greatest (fun a => edge_length a minPoint maxPoint)
              (fun a => edge_length_not_NaN a minPoint maxPoint))
    as (Hmax & Hbefore & Hx).
  cbn beta zeta in Hu, Hmax, Hbefore, Hx.
  match type of Hu with _ = (?e, _) => set (ax := e) in * end.
  rewrite Hu. cbn [fst snd]. clear Hu.
  assert (Hexact_x :
            (forall a, exact_length a minPoint maxPoint
                       <= exact_length AxisX minPoint maxPoint) ->
            ax = AxisX).
  { intros H. apply Hx. intros a. by apply FloatFacts.abs_round_mono, H. }
  split; [exact Hmax|]. split; [|split; [done|split; [exact Hexact_x|split]]].
  - intros a Ha. split; [by apply Hbefore|].
    by apply FloatFacts.lt_abs_round_inv, Hbefore.
  - intros ->. apply Hexact_x. intros a. unfold exact_length.
    rewrite !(Qabs_wd (_ - _) 0) by ring. lra.
  - split.
    + intros Hex a. pose proof (Hmax a) as Hle.
      unfold edge_length, float_length, Float.sub, Float.add, Float.neg in Hle.
      destruct (FloatFacts.is_exact_round _ (Hex a)) as (va & Ea & Eva).
      destruct (FloatFacts.is_exact_round _ (Hex ax)) as (vx' & Ex & Evx).
      unfold Qminus in Ea, Ex. rewrite Ea, Ex in Hle. cbn in Hle.
      apply Qle_bool_iff in Hle. unfold exact_length.
      by rewrite <- Eva, <- Evx.
    + intros H1 H2. unfold float_midpoint, Float.add.
      destruct (FloatFacts.is_exact_round _ H1) as (v & -> & Ev).
      cbn [Float.half].
      assert (E : v / 2 == (coord ax minPoint + coord ax maxPoint) / 2)
        by by rewrite Ev.
      rewrite (FloatFacts.round_comp _ _ E).
      apply FloatFacts.is_exact_round, H2.
Qed.

(** C8.  The axis along which [construct] splits a box is chosen on the
    binary32 edge lengths [|max - min|] of lines 50-52: the chosen axis has
    the greatest of the three computed lengths, and an axis that comes
    earlier in the order x, y, z has a strictly smaller one (so it is also
    strictly shorter), which is how ties go to x, then y, then z.  The chosen
    axis is the longest edge of the box whenever the three differences are
    binary32 numbers.  The split coordinate is the binary32 result of
    [(min + max) / 2.0f] along the chosen axis: the midpoint when the sum
    and its half are binary32 numbers.  Every box is accepted: x is chosen
    whenever no edge is longer than the one along x, in particular for a box
    reduced to a point.  In a tree returned by [construct] the children of
    an internal node hold the two halves of the node's triangles along this
    axis and coordinate of the node's own box; and a call makes its node
    internal, with these halves, whenever both are non-empty and
    [get_depth() <= max_depth]. *)
Theorem longest_axis_choice :
  (forall minPoint maxPoint,
      let ax := fst (longest_axis minPoint maxPoint) in
      let splitCoord := snd (longest_axis minPoint maxPoint) in
      (forall a, Float.le (edge_length a minPoint maxPoint)
                          (edge_length ax minPoint maxPoint) = true)
      /\ (forall a, before a ax ->
                    Float.lt (edge_length a minPoint maxPoint)
                             (edge_length ax minPoint maxPoint) = true
                    /\ exact_length a minPoint maxPoint
                       < exact_length ax minPoint maxPoint)
      /\ splitCoord = float_midpoint (coord ax minPoint) (coord ax maxPoint)
      /\ ((forall a, exact_length a minPoint maxPoint
                     <= exact_length AxisX minPoint maxPoint) ->
          ax = AxisX)
      /\ (minPoint = maxPoint -> ax = AxisX)
      /\ ((forall a,
              Float.is_exact (coord a maxPoint - coord a minPoint) = true)
          -> forall a, exact_length a minPoint maxPoint
                       <= exact_length ax minPoint maxPoint)
      /\ (Float.is_exact (coord ax minPoint + coord ax maxPoint) = true ->
          Float.is_exact ((coord ax minPoint + coord ax maxPoint) / 2) = true
          -> exists s, splitCoord = Float.Finite s
                       /\ s == (coord ax minPoint + coord ax maxPoint) / 2))
  /\ (forall ts md ms root m l r,
         construct mesh fresh_depth ts md ms = Done root ->
         m ∈ nodes root -> get_left m = Some l -> get_right m = Some r ->
         split_triangles mesh
           (fst (longest_axis (get_min m) (get_max m)))
           (snd (longest_axis (get_min m) (get_max m)))
           (get_triangles m)
         = (get_triangles l, get_triangles r))
  /\ (forall ts md ms minPoint maxPoint,
         bounding_box mesh ts = Done (minPoint, maxPoint) ->
         (fresh_depth <= md)%Z ->
         fst (split_triangles mesh (fst (longest_axis minPoint maxPoint))
                (snd (longest_axis minPoint maxPoint)) ts) <> [] ->
         snd (split_triangles mesh (fst (longest_axis minPoint maxPoint))
                (snd (longest_axis minPoint maxPoint)) ts) <> [] ->
         exists root l r,
           construct mesh fresh_depth ts md ms = Done root
           /\ get_left root = Some l /\ get_right root = Some r
           /\ split_triangles mesh (fst (longest_axis minPoint maxPoint))
                (snd (longest_axis minPoint maxPoint)) ts
              = (get_triangles l, get_triangles r)).
Proof.
  split; [apply longest_axis_spec|]. split.
  - intros ts md ms root m l r H Hm Hl Hr.
    destruct (construct_built _ _ _ _ _ H Hm) as [_ [[Hn _] | Hc]];
      [congruence|].
    destruct Hc as (l' & r' & Hl' & Hr' & Hs & _).
    by assert (l' = l /\ r' = r) as [<- <-] by (split; congruence).
  - intros ts md ms mn mx Hbox Hd Hl Hr.
    assert (Hne : ts <> []) by by destruct ts.
    destruct (construct_total ts md ms Hne) as [root H].
    exists root.
    destruct (construct_built _ _ _ _ _ H (nodes_self root)) as [Hb Hcase].
    destruct (construct_Done_inv _ _ _ _ H) as [next' H'].
    destruct (construct_at_leaf_iff ts md ms _ _ _ H') as (Ets & Hleaf & _).
    rewrite Ets, Hbox in Hb. injection Hb as Emn Emx.
    rewrite <- Emn, <- Emx in Hleaf, Hcase.
    destruct Hcase as [[Hn1 Hn2] | (l & r & Hl' & Hr' & Hs & _)].
    + exfalso.
      assert (Hlf : is_leaf root = true)
        by (unfold is_leaf; by rewrite Hn1, Hn2).
      apply Hleaf in Hlf as [|[|]]; [lia|done..].
    + exists l, r. by rewrite Ets in Hs.
Qed.

End ConstructFacts.

(** ** The collision tester: facts *)

(** Induction on a pair of trees, as [test_collision] descends: into the
    first tree with any node of the second, or into the second tree with the
    first node kept. *)
Lemma BVHNode_pair_ind (P : BVHNode -> BVHNode -> Prop) :
  (forall a b,
      (forall x y, child_of x a -> y = b \/ child_of y b -> P x y) ->
      (forall y, child_of y b -> P a y) ->
      P a b) ->
  forall a b, P a b.
Proof.
  intros step a.
  induction a as [a1 mn1 mx1 ts1 l1 r1 IHl IHr] using BVHNode_ind.
  assert (Hout : forall x, child_of x (mkBVHNode a1 mn1 mx1 ts1 l1 r1) ->
                           forall y, P x y).
  { intros x [Hx | Hx]; cbn in Hx; eauto. }
  intros b. induction b as [a2 mn2 mx2 ts2 l2 r2 IHl2 IHr2] using BVHNode_ind.
  apply step.
  - intros x y Hx _. by apply Hout.
  - intros y [Hy | Hy]; cbn in Hy; eauto.
Qed.

Section TestCollisionFacts.
Variable mesh : tri_ptr -> Triangle.
Variable prim : Triangle -> mat4 -> Triangle -> mat4 -> bool.
Variables first_matrix second_matrix : mat4.

Abbreviation tc a b :=
  (test_collision mesh prim a first_matrix b second_matrix).
Abbreviation call ti tj := (mkprim_call ti first_matrix tj second_matrix).
Abbreviation is_sound := (sound mesh prim first_matrix second_matrix).
Abbreviation has_effect := (effect mesh prim first_matrix second_matrix).
Abbreviation hits := (hit mesh prim first_matrix second_matrix).

Lemma test_collision_unfold a b s :
  tc a b s
  = test_collision_body mesh prim first_matrix second_matrix
      (fun x y s => tc x y s) a b s.
Proof.
  destruct a as [a1 mn1 mx1 ts1 l1 r1], b as [a2 mn2 mx2 ts2 l2 r2].
  unfold test_collision, test_collision_body, descend, left_absent.
  cbn [test_collision_from get_left get_right get_min get_max addr
       get_triangles].
  destruct (boxes_separated _ _ _ _ _ _); [done|].
  by destruct l1 as [l1|], l2 as [l2|]; cbn [andb mbind option_bind].
Qed.

(** *** The algebra of flag updates *)

Lemma flags_eq s1 s2 :
  node_collision s1 = node_collision s2 ->
  tri_collision s1 = tri_collision s2 ->
  calls s1 = calls s2 -> s1 = s2.
Proof. destruct s1, s2; cbn; congruence. Qed.

Lemma add_flags_assoc e2 e1 s :
  add_flags e2 (add_flags e1 s) = add_flags (add_flags e2 e1) s.
Proof.
  apply flags_eq; cbn; [by rewrite (assoc_L (∪)).. | by rewrite app_assoc].
Qed.

Lemma add_no_flags s : add_flags no_flags s = s.
Proof.
  apply flags_eq; cbn;
    [by rewrite (left_id_L ∅ (∪)).. | by rewrite app_nil_r].
Qed.

Lemma mark_node_add n s : mark_node n s = add_flags (mark_node n no_flags) s.
Proof.
  apply flags_eq; cbn.
  - by rewrite (right_id_L ∅ (∪)).
  - by rewrite (left_id_L ∅ (∪)).
  - by rewrite app_nil_r.
Qed.

Lemma sound_no_flags : is_sound no_flags.
Proof. intros t Ht. cbn in Ht. by apply elem_of_empty in Ht. Qed.

Lemma sound_mark_node n : is_sound (mark_node n no_flags).
Proof. intros t Ht. cbn in Ht. by apply elem_of_empty in Ht. Qed.

Lemma sound_add e2 e1 :
  is_sound e2 -> is_sound e1 ->
  is_sound (add_flags e2 e1).
Proof.
  intros H2 H1 t Ht. cbn in Ht. apply elem_of_union in Ht as [Ht | Ht].
  - destruct (H2 t Ht) as (ti & tj & Hc & Hp & Hor). exists ti, tj. cbn.
    rewrite elem_of_app. auto.
  - destruct (H1 t Ht) as (ti & tj & Hc & Hp & Hor). exists ti, tj. cbn.
    rewrite elem_of_app. auto.
Qed.

Lemma effect_ret e :
  is_sound e -> has_effect (fun s => Some (add_flags e s)).
Proof. intros He. right. by exists e. Qed.

Lemma effect_skip : has_effect (fun s => Some s).
Proof.
  right. exists no_flags. split; [apply sound_no_flags|].
  intros s. by rewrite add_no_flags.
Qed.

Lemma effect_fail : has_effect (fun _ => None).
Proof. by left. Qed.

Lemma effect_bind f g :
  has_effect f -> has_effect g ->
  has_effect (fun s => f s ≫= g).
Proof.
  intros [Hf | (ef & Sf & Hf)] Hg.
  - left. intros s. by rewrite Hf.
  - destruct Hg as [Hg | (eg & Sg & Hg)].
    + left. intros s. rewrite Hf. cbn. apply Hg.
    + right. exists (add_flags eg ef). split; [by apply sound_add|].
      intros s. rewrite Hf. cbn. by rewrite Hg, add_flags_assoc.
Qed.

Lemma effect_ext f g :
  (forall s, f s = g s) -> has_effect g -> has_effect f.
Proof.
  intros E [Hg | (e & Se & Hg)].
  - left. intros s. by rewrite E.
  - right. exists e. split; [done|]. intros s. by rewrite E.
Qed.

(** *** The triangle loops *)

Lemma inner_loop ti ts2 : forall s,
  let s' := fold_left (fun s tj => test_pair mesh prim first_matrix
                                     second_matrix ti tj s) ts2 s in
  node_collision s' = node_collision s
  /\ calls s' = calls s ++ map (fun tj => call ti tj) ts2
  /\ forall t, t ∈ tri_collision s' <->
               t ∈ tri_collision s
               \/ exists tj, tj ∈ ts2 /\ hits ti tj = true
                             /\ (t = ti \/ t = tj).
Proof.
  induction ts2 as [|tj ts2 IH]; intros s; cbn [fold_left map].
  - rewrite app_nil_r. repeat split; auto. intros [|(tj & Htj & _)]; [done|].
    by apply elem_of_nil in Htj.
  - destruct (IH (test_pair mesh prim first_matrix second_matrix ti tj s))
      as (Hn & Hc & Ht). cbn zeta in *.
    rewrite Hn, Hc. split; [|split].
    + unfold test_pair. by destruct (prim _ _ _ _).
    + unfold test_pair. destruct (prim _ _ _ _); cbn; by rewrite <- app_assoc.
    + intros t. rewrite Ht. unfold test_pair. fold (hits ti tj).
      destruct (hits ti tj) eqn:E; cbn.
      * rewrite !elem_of_union, !elem_of_singleton. split.
        -- intros [[-> | [-> | ?]] | (x & Hx & Hh & Hor)]; auto.
           ++ right. exists tj. rewrite elem_of_cons. auto.
           ++ right. exists tj. rewrite elem_of_cons. auto.
           ++ right. exists x. rewrite elem_of_cons. auto.
        -- intros [? | (x & Hx & Hh & Hor)]; auto.
           apply elem_of_cons in Hx as [-> | Hx].
           ++ left. destruct Hor; auto.
           ++ right. eauto.
      * split.
        -- intros [? | (x & Hx & Hh & Hor)]; auto.
           right. exists x. rewrite elem_of_cons. auto.
        -- intros [? | (x & Hx & Hh & Hor)]; auto.
           apply elem_of_cons in Hx as [-> | Hx]; [congruence|].
           right. eauto.
Qed.

Lemma test_triangles_spec ts1 ts2 : forall s,
  let s' := test_triangles mesh prim first_matrix second_matrix ts1 ts2 s in
  node_collision s' = node_collision s
  /\ calls s' = calls s ++ map (fun p => call (fst p) (snd p))
                               (list_prod ts1 ts2)
  /\ forall t, t ∈ tri_collision s' <->
               t ∈ tri_collision s
               \/ exists ti tj, ti ∈ ts1 /\ tj ∈ ts2 /\ hits ti tj = true
                                /\ (t = ti \/ t = tj).
Proof.
  unfold test_triangles.
  induction ts1 as [|ti ts1 IH]; intros s; cbn [fold_left list_prod map].
  - rewrite app_nil_r. repeat split; auto.
    intros [|(ti & tj & Hti & _)]; [done|]. by apply elem_of_nil in Hti.
  - destruct (inner_loop ti ts2 s) as (Hn1 & Hc1 & Ht1).
    destruct (IH (fold_left (fun s tj => test_pair mesh prim first_matrix
                               second_matrix ti tj s) ts2 s))
      as (Hn & Hc & Ht). cbn zeta in *.
    rewrite Hn, Hc, Hn1, Hc1. split; [done|]. split.
    + rewrite map_app, map_map. cbn [fst snd]. by rewrite app_assoc.
    + intros t. rewrite Ht, Ht1. split.
      * intros [[? | (tj & Htj & Hh & Hor)] | (x & tj & Hx & Htj & Hh & Hor)];
          auto; right.
        -- exists ti, tj. rewrite elem_of_cons. auto.
        -- exists x, tj. rewrite elem_of_cons. auto.
      * intros [? | (x & tj & Hx & Htj & Hh & Hor)]; auto.
        apply elem_of_cons in Hx as [-> | Hx].
        -- left. right. eauto.
        -- right. eauto 10.
Qed.

Lemma test_triangles_add ts1 ts2 s :
  test_triangles mesh prim first_matrix second_matrix ts1 ts2 s
  = add_flags (test_triangles mesh prim first_matrix second_matrix
                 ts1 ts2 no_flags) s.
Proof.
  destruct (test_triangles_spec ts1 ts2 s) as (Hn & Hc & Ht).
  destruct (test_triangles_spec ts1 ts2 no_flags) as (Hn0 & Hc0 & Ht0).
  cbn zeta in *. apply flags_eq; cbn.
  - rewrite Hn, Hn0. cbn. by rewrite (left_id_L ∅ (∪)).
  - apply set_eq. intros t. rewrite elem_of_union, Ht, Ht0. cbn.
    rewrite elem_of_empty. tauto.
  - by rewrite Hc, Hc0.
Qed.

Lemma test_triangles_sound ts1 ts2 :
  is_sound
    (test_triangles mesh prim first_matrix second_matrix ts1 ts2 no_flags).
Proof.
  destruct (test_triangles_spec ts1 ts2 no_flags) as (_ & Hc & Ht).
  cbn zeta in *. intros t Hin. apply Ht in Hin as [Hin | Hin].
  { cbn in Hin. by apply elem_of_empty in Hin. }
  destruct Hin as (ti & tj & Hti & Htj & Hh & Hor).
  exists ti, tj. rewrite Hc. cbn. split; [|by split].
  apply list_elem_of_fmap. exists (ti, tj). split; [done|].
  apply list_elem_of_In, in_prod; by apply list_elem_of_In.
Qed.


(** *** The recursion *)

Lemma descend_effect rec a b :
  (forall x y, child_of x a -> y = b \/ child_of y b ->
               has_effect (rec x y)) ->
  (forall y, child_of y b -> has_effect (rec a y)) ->
  has_effect
    (descend mesh prim first_matrix second_matrix rec a b).
Proof.
  intros Hout Hin. unfold descend, child_of in *.
  destruct (left_absent a), (left_absent b); cbn [andb].
  - eapply effect_ext; [intros s; by rewrite test_triangles_add|].
    apply effect_ret, test_triangles_sound.
  - destruct (get_left b) as [l2|]; cbn; [|apply effect_fail].
    apply effect_bind; [auto|].
    destruct (get_right b) as [r2|]; cbn; [auto | apply effect_fail].
  - destruct (get_left a) as [l1|]; cbn; [|apply effect_fail].
    apply effect_bind; [auto|].
    destruct (get_right a) as [r1|]; cbn; [auto | apply effect_fail].
  - destruct (get_left a) as [l1|]; cbn; [|apply effect_fail].
    destruct (get_left b) as [l2|]; cbn; [|apply effect_fail].
    apply effect_bind; [auto|].
    destruct (get_right b) as [r2|]; cbn; [|apply effect_fail].
    apply effect_bind; [auto|].
    destruct (get_right a) as [r1|]; cbn; [|apply effect_fail].
    apply effect_bind; auto.
Qed.

Lemma marks_effect a b :
  has_effect
    (fun s => Some (mark_node (addr b) (mark_node (addr a) s))).
Proof.
  eapply effect_ext.
  { intros s. by rewrite (mark_node_add (addr b)), (mark_node_add (addr a)),
      add_flags_assoc. }
  apply effect_ret, sound_add; apply sound_mark_node.
Qed.

(** A run of [test_collision] either goes through a null child, whatever the
    flags are, or adds to the flags an amount that does not depend on them. *)
Lemma test_collision_effect a b : has_effect (tc a b).
Proof.
  revert a b. apply BVHNode_pair_ind. intros a b Hout Hin.
  eapply effect_ext; [intros s; apply test_collision_unfold|].
  unfold test_collision_body.
  destruct (boxes_separated _ _ _ _ _ _); [apply effect_skip|].
  apply (effect_bind _ _ (marks_effect a b)).
  by apply descend_effect.
Qed.

Lemma well_formed_cases n :
  well_formed n = true ->
  (get_left n = None /\ get_right n = None)
  \/ exists l r, get_left n = Some l /\ get_right n = Some r
                 /\ well_formed l = true /\ well_formed r = true.
Proof.
  destruct n as [a mn mx ts [l|] [r|]]; cbn; try done.
  - intros H. apply andb_true_iff in H. right. exists l, r. tauto.
  - auto.
Qed.

(** On trees whose nodes have both children or none, [test_collision] never
    goes through a null child. *)
Lemma test_collision_total a b :
  well_formed a = true -> well_formed b = true ->
  forall s, is_Some (tc a b s).
Proof.
  revert a b. apply (BVHNode_pair_ind (fun a b =>
    well_formed a = true -> well_formed b = true ->
    forall s, is_Some (tc a b s))).
  intros a b Hout Hin Ha Hb s. rewrite test_collision_unfold.
  unfold test_collision_body.
  destruct (boxes_separated _ _ _ _ _ _); [done|].
  generalize (mark_node (addr b) (mark_node (addr a) s)). clear s. intros s.
  unfold descend, left_absent, child_of in *.
  destruct (well_formed_cases a Ha)
    as [[La Ra] | (l1 & r1 & La & Ra & Wl1 & Wr1)];
    destruct (well_formed_cases b Hb)
      as [[Lb Rb] | (l2 & r2 & Lb & Rb & Wl2 & Wr2)];
    rewrite ?La, ?Ra, ?Lb, ?Rb; cbn.
  - done.
  - destruct (Hin l2 (or_introl Lb) Ha Wl2 s) as [s1 ->]. cbn.
    apply Hin; auto.
  - destruct (Hout l1 b (or_introl La) (or_introl eq_refl) Wl1 Hb s)
      as [s1 ->]. cbn.
    apply Hout; auto.
  - destruct (Hout l1 l2 (or_introl La) (or_intror (or_introl Lb))
                Wl1 Wl2 s) as [s1 ->]. cbn.
    destruct (Hout l1 r2 (or_introl La) (or_intror (or_intror Rb))
                Wl1 Wr2 s1) as [s2 ->]. cbn.
    destruct (Hout r1 l2 (or_intror Ra) (or_intror (or_introl Lb))
                Wr1 Wl2 s2) as [s3 ->]. cbn.
    apply Hout; auto.
Qed.


(** X11.  On two trees returned by [construct], [test_collision] returns
    flags, from any flags and for any matrices: it never goes through a null
    child. *)
Lemma test_collision_built fresh_depth ts1 md1 ms1 ts2 md2 ms2 a b s :
  construct mesh fresh_depth ts1 md1 ms1 = Done a ->
  construct mesh fresh_depth ts2 md2 ms2 = Done b ->
  is_Some (test_collision mesh prim a first_matrix b second_matrix s).
Proof.
  intros Ha Hb. apply test_collision_total; eapply construct_well_formed; eauto.
Qed.

(** *** Claims about the tester *)

(** C2.  When the two transformed boxes fail the overlap test on some axis,
    [test_collision] returns at once: the flags it hands back are the flags it
    was given, so no node or triangle flag of either tree has been set, and
    the primitive has not been called. *)
Theorem test_collision_prunes a b s ax :
  overlap_on ax (mat_mul_vec first_matrix (get_min a))
                (mat_mul_vec first_matrix (get_max a))
                (mat_mul_vec second_matrix (get_min b))
                (mat_mul_vec second_matrix (get_max b)) = false ->
  test_collision mesh prim a first_matrix b second_matrix s = Some s.
Proof.
  intros H. rewrite test_collision_unfold. unfold test_collision_body.
  assert (boxes_separated first_matrix second_matrix (get_min a) (get_max a)
            (get_min b) (get_max b) = true) as ->; [|done].
  unfold boxes_separated, separated. destruct ax; rewrite H; cbn;
    by rewrite ?orb_true_r.
Qed.

(** C5.  When the two transformed boxes overlap on the three axes,
    [test_collision] first sets the flags of both nodes and only then tests
    triangles or recurses: the run is the remaining work started on the flags
    with both nodes marked.  Both node flags are set in the result, and they
    are set even if the primitive finds no intersecting pair at all, in which
    case no triangle flag changes. *)
Theorem test_collision_marks_nodes a b s s' :
  boxes_separated first_matrix second_matrix (get_min a) (get_max a)
                  (get_min b) (get_max b) = false ->
  test_collision mesh prim a first_matrix b second_matrix s = Some s' ->
  test_collision mesh prim a first_matrix b second_matrix s
  = descend mesh prim first_matrix second_matrix
      (fun x y s => test_collision mesh prim x first_matrix y second_matrix s)
      a b (mark_node (addr b) (mark_node (addr a) s))
  /\ addr a ∈ node_collision s' /\ addr b ∈ node_collision s'
  /\ ((forall ti tj, hit mesh prim first_matrix second_matrix ti tj = false) ->
      tri_collision s' = tri_collision s).
Proof.
  intros Hsep Hrun.
  assert (E : tc a b s
              = descend mesh prim first_matrix second_matrix
                  (fun x y s => tc x y s) a b
                  (mark_node (addr b) (mark_node (addr a) s))).
  { rewrite test_collision_unfold. unfold test_collision_body.
    by rewrite Hsep. }
  split; [done|].
  destruct (descend_effect (fun x y s => tc x y s) a b) as [Hf | (e & Se & He)].
  { intros x y _ _. apply test_collision_effect. }
  { intros y _. apply test_collision_effect. }
  { rewrite E, Hf in Hrun. done. }
  rewrite E, He in Hrun. injection Hrun as <-. cbn.
  split; [|split].
  - rewrite !elem_of_union, !elem_of_singleton. auto.
  - rewrite !elem_of_union, !elem_of_singleton. auto.
  - intros Hno. assert (tri_collision e = ∅) as ->.
    { apply set_eq. intros t. split; [|by intros ?%elem_of_empty].
      intros Ht. destruct (Se t Ht) as (ti & tj & _ & Hh & _).
      by rewrite Hno in Hh. }
    by rewrite (left_id_L ∅ (∪)).
Qed.

(** C6.  On two leaves whose transformed boxes overlap, [test_collision]
    calls the primitive on every pair of the cross product of the two
    triangle lists, once each and in the order of the two loops, whatever the
    earlier answers were; every pair on which the primitive answers [true]
    has both its triangles flagged, and no other triangle flag changes. *)
Theorem test_collision_leaves_all_pairs a b s :
  is_leaf a = true -> is_leaf b = true ->
  boxes_separated first_matrix second_matrix (get_min a) (get_max a)
                  (get_min b) (get_max b) = false ->
  exists s',
    test_collision mesh prim a first_matrix b second_matrix s = Some s'
    /\ calls s'
       = calls s ++ map (fun p => mkprim_call (fst p) first_matrix
                                              (snd p) second_matrix)
                        (list_prod (get_triangles a) (get_triangles b))
    /\ (forall ti tj,
           ti ∈ get_triangles a -> tj ∈ get_triangles b ->
           hit mesh prim first_matrix second_matrix ti tj = true ->
           ti ∈ tri_collision s' /\ tj ∈ tri_collision s')
    /\ (forall t,
           t ∈ tri_collision s' ->
           t ∈ tri_collision s
           \/ exists ti tj,
               ti ∈ get_triangles a /\ tj ∈ get_triangles b
               /\ hit mesh prim first_matrix second_matrix ti tj = true
               /\ (t = ti \/ t = tj)).
Proof.
  intros La Lb Hsep.
  assert (left_absent a = true /\ left_absent b = true) as [Ea Eb].
  { unfold is_leaf, left_absent in *.
    by destruct (get_left a), (get_left b). }
  eexists. split.
  { rewrite test_collision_unfold. unfold test_collision_body.
    rewrite Hsep. unfold descend. rewrite Ea, Eb. reflexivity. }
  destruct (test_triangles_spec (get_triangles a) (get_triangles b)
              (mark_node (addr b) (mark_node (addr a) s))) as (_ & Hc & Ht).
  cbn zeta in *. split; [exact Hc|]. split.
  - intros ti tj Hti Htj Hh. split; apply Ht; right; exists ti, tj; auto.
  - intros t Hin. apply Ht in Hin. exact Hin.
Qed.

(** C9.  A run of [test_collision] only adds flags: every node or triangle
    flag set before the run is set after it.  Running it again on the same
    trees and matrices, starting from the flags the first run left, succeeds
    and leaves every node flag and every triangle flag as the first run left
    it. *)
Theorem test_collision_idempotent a b s s1 :
  test_collision mesh prim a first_matrix b second_matrix s = Some s1 ->
  node_collision s ⊆ node_collision s1
  /\ tri_collision s ⊆ tri_collision s1
  /\ exists s2,
      test_collision mesh prim a first_matrix b second_matrix s1 = Some s2
      /\ node_collision s2 = node_collision s1
      /\ tri_collision s2 = tri_collision s1.
Proof.
  intros Hrun.
  destruct (test_collision_effect a b) as [Hf | (e & _ & He)].
  { by rewrite Hf in Hrun. }
  rewrite He in Hrun. injection Hrun as <-. cbn.
  split; [apply union_subseteq_r|]. split; [apply union_subseteq_r|].
  exists (add_flags e (add_flags e s)). split; [apply He|]. cbn.
  by rewrite !(assoc_L (∪)), !(idemp_L (∪)).
Qed.

End TestCollisionFacts.

(** ** The tree builder: further facts *)

Section BuilderMore.
Variable mesh : tri_ptr -> Triangle.
Variable fresh_depth : Z.
Variable ms : Z.

Abbreviation split_of ts mn mx :=
  (split_triangles mesh (fst (longest_axis mn mx)) (snd (longest_axis mn mx))
     ts).

(** Induction along the calls of [construct]: a property of (input, depth
    argument, result) that holds for a call that creates a leaf, and for a
    call that splits once it holds for the two recursive calls. *)
Lemma construct_rec_induction (P : list tri_ptr -> Z -> BVHNode -> Prop) :
  (forall ts md next mn mx,
      bounding_box mesh ts = Done (mn, mx) ->
      may_split fresh_depth (fst (split_of ts mn mx)) (snd (split_of ts mn mx))
                md = false ->
      P ts md (mkBVHNode next mn mx ts None None)) ->
  (forall ts md next mn mx ln rn,
      bounding_box mesh ts = Done (mn, mx) ->
      may_split fresh_depth (fst (split_of ts mn mx)) (snd (split_of ts mn mx))
                md = true ->
      get_triangles ln = fst (split_of ts mn mx) ->
      get_triangles rn = snd (split_of ts mn mx) ->
      P (fst (split_of ts mn mx))
        (child_depth (fst (split_of ts mn mx)) md ms) ln ->
      P (snd (split_of ts mn mx))
        (child_depth (snd (split_of ts mn mx)) md ms) rn ->
      P ts md (mkBVHNode next mn mx ts (Some ln) (Some rn))) ->
  forall fuel ts md next root next',
    construct_rec mesh fresh_depth fuel ts md ms next = Done (root, next') ->
    P ts md root.
Proof.
  intros Hleaf Hsplit fuel.
  induction fuel as [|fuel IH]; intros ts md next root next' H.
  - by apply construct_rec_O in H.
  - apply construct_rec_inv in H as (mn & mx & Hbox & Hcase).
    cbn zeta in Hcase.
    destruct Hcase as [(Hno & -> & _) | (Hyes & ln & rn & mid & Hl & Hr & ->)].
    + by apply Hleaf.
    + apply Hsplit; try done.
      * by apply construct_rec_built in Hl as [-> _].
      * by apply construct_rec_built in Hr as [-> _].
      * eapply IH, Hl.
      * eapply IH, Hr.
Qed.

Lemma construct_induction (P : list tri_ptr -> Z -> BVHNode -> Prop) :
  (forall ts md next mn mx,
      bounding_box mesh ts = Done (mn, mx) ->
      may_split fresh_depth (fst (split_of ts mn mx)) (snd (split_of ts mn mx))
                md = false ->
      P ts md (mkBVHNode next mn mx ts None None)) ->
  (forall ts md next mn mx ln rn,
      bounding_box mesh ts = Done (mn, mx) ->
      may_split fresh_depth (fst (split_of ts mn mx)) (snd (split_of ts mn mx))
                md = true ->
      get_triangles ln = fst (split_of ts mn mx) ->
      get_triangles rn = snd (split_of ts mn mx) ->
      P (fst (split_of ts mn mx))
        (child_depth (fst (split_of ts mn mx)) md ms) ln ->
      P (snd (split_of ts mn mx))
        (child_depth (snd (split_of ts mn mx)) md ms) rn ->
      P ts md (mkBVHNode next mn mx ts (Some ln) (Some rn))) ->
  forall ts md root,
    construct mesh fresh_depth ts md ms = Done root -> P ts md root.
Proof.
  intros Hleaf Hsplit ts md root H.
  apply construct_Done_inv in H as [next' H].
  eapply construct_rec_induction; eauto.
Qed.

(** X1.  [construct] throws exactly when the triangle list is empty.  On a
    non-empty list it returns a tree, whatever the depth and the minimum
    count are, and the root refers to the whole input list, in order. *)
Theorem construct_throws_iff_empty ts md :
  match construct mesh fresh_depth ts md ms with
  | Done root => ts <> [] /\ get_triangles root = ts
  | Throws => ts = []
  | Exhausted => False
  end.
Proof.
  destruct ts as [|t ts]; [done|].
  destruct (construct_total mesh fresh_depth (t :: ts) md ms) as [root H];
    [done|].
  rewrite H. split; [done|].
  apply construct_Done_inv in H as [next' H].
  by apply construct_rec_built in H as [-> _].
Qed.

(** X2.  In a tree returned by [construct] the triangle lists of the leaves,
    taken together, are a permutation of the input list: every entry of the
    input ends in exactly one leaf.  No node has an empty triangle list. *)
Theorem construct_leaves_partition ts md root :
  construct mesh fresh_depth ts md ms = Done root ->
  leaf_triangles root ≡ₚ ts
  /\ forall m, m ∈ nodes root -> get_triangles m <> [].
Proof.
  revert ts md root.
  apply (construct_induction (fun ts md root =>
    leaf_triangles root ≡ₚ ts
    /\ forall m, m ∈ nodes root -> get_triangles m <> [])).
  - intros ts md next mn mx Hbox _. split; [done|].
    intros m Hm. cbn in Hm. apply list_elem_of_singleton in Hm. subst m. cbn.
    by eapply bounding_box_nonempty.
  - intros ts md next mn mx ln rn Hbox Hs Hl Hr [IHl1 IHl2] [IHr1 IHr2]. split.
    + cbn [leaf_triangles]. rewrite IHl1, IHr1.
      eapply split_triangles_perm, surjective_pairing.
    + intros m Hm. cbn [nodes] in Hm.
      apply elem_of_cons in Hm as [-> | Hm].
      * cbn. by eapply bounding_box_nonempty.
      * apply elem_of_app in Hm as [Hm | Hm]; auto.
Qed.

(** X3.  A tree returned by [construct] on [n] triangles has at most
    [2 * n - 1] nodes and its height is at most [n - 1], whatever
    [max_depth] is. *)
Theorem construct_size_bounds ts md root :
  construct mesh fresh_depth ts md ms = Done root ->
  (node_count root + 1 <= 2 * length ts)%nat
  /\ (height root + 1 <= length ts)%nat.
Proof.
  revert ts md root.
  apply (construct_induction (fun ts md root =>
    (node_count root + 1 <= 2 * length ts)%nat
    /\ (height root + 1 <= length ts)%nat)).
  - intros ts md next mn mx Hbox _.
    apply bounding_box_nonempty in Hbox.
    destruct ts; [done|]. cbn. lia.
  - intros ts md next mn mx ln rn Hbox Hs Hl Hr [IHl1 IHl2] [IHr1 IHr2].
    pose proof (split_triangles_length mesh
                  (fst (longest_axis mn mx)) (snd (longest_axis mn mx))
                  ts _ _ (surjective_pairing _)) as Hsum.
    unfold node_count in *. cbn [nodes height length].
    rewrite length_app. lia.
Qed.

(** X4.  When a fresh node's depth counter is above 0
    ([depth_exhausted_at_zero]), the height of the tree returned by
    [construct] is at most [max_depth - get_depth() + 1], and 0 when that
    number is negative: with a counter that starts at 1 the tree is no higher
    than [max_depth]. *)
Theorem construct_height_within_depth ts md root :
  depth_exhausted_at_zero fresh_depth ->
  construct mesh fresh_depth ts md ms = Done root ->
  (height root <= Z.to_nat (md - fresh_depth + 1))%nat.
Proof.
  unfold depth_exhausted_at_zero. intros Hd. revert ts md root.
  apply (construct_induction (fun ts md root =>
    (height root <= Z.to_nat (md - fresh_depth + 1))%nat)).
  - intros. cbn. lia.
  - intros ts md next mn mx ln rn Hbox Hs Hl Hr IHl IHr.
    apply may_split_true in Hs as (_ & _ & Hmd).
    cbn [height]. unfold child_depth in IHl, IHr.
    destruct (_ >=? _)%Z in IHl; destruct (_ >=? _)%Z in IHr; lia.
Qed.

(** X5.  When a fresh node's depth counter is above 0
    ([depth_exhausted_at_zero]), a child that holds fewer triangles than
    [min_triangles_for_split] (converted to [size_t]) is a leaf.  The root is
    not subject to this minimum. *)
Theorem construct_small_children_are_leaves ts md root m c :
  depth_exhausted_at_zero fresh_depth ->
  construct mesh fresh_depth ts md ms = Done root ->
  m ∈ nodes root -> child_of c m ->
  (Z.of_nat (length (get_triangles c)) < to_size_t ms)%Z ->
  is_leaf c = true.
Proof.
  unfold depth_exhausted_at_zero. intros Hd H Hm Hc Hsmall.
  revert ts md root H m c Hm Hc Hsmall.
  apply (construct_induction (fun ts md root =>
    (forall m c, m ∈ nodes root -> child_of c m ->
       (Z.of_nat (length (get_triangles c)) < to_size_t ms)%Z ->
       is_leaf c = true)
    /\ ((md < fresh_depth)%Z -> is_leaf root = true))).
  - intros ts md next mn mx Hbox _. split; [|done].
    intros m c Hm [Hc | Hc] _; cbn in Hm; apply list_elem_of_singleton in Hm;
      subst m; done.
  - intros ts md next mn mx ln rn Hbox Hs Hl Hr [IHl1 IHl2] [IHr1 IHr2].
    apply may_split_true in Hs as (_ & _ & Hmd). split; [|lia].
    intros m c Hm Hc Hsmall. cbn [nodes] in Hm.
    apply elem_of_cons in Hm as [-> | Hm].
    + destruct Hc as [Hc | Hc]; cbn in Hc; injection Hc as <-.
      * apply IHl2. unfold child_depth. rewrite <- Hl.
        destruct (_ >=? _)%Z eqn:E; [|lia]. apply Z.geb_le in E. lia.
      * apply IHr2. unfold child_depth. rewrite <- Hr.
        destruct (_ >=? _)%Z eqn:E; [|lia]. apply Z.geb_le in E. lia.
    + apply elem_of_app in Hm as [Hm | Hm]; eauto.
Qed.

(** *** Tight boxes *)

Lemma std_min_cases a b : Coord.std_min a b = a \/ Coord.std_min a b = b.
Proof. unfold Coord.std_min. destruct (Coord.lt b a); auto. Qed.

Lemma std_max_cases a b : Coord.std_max a b = a \/ Coord.std_max a b = b.
Proof. unfold Coord.std_max. destruct (Coord.lt a b); auto. Qed.

Lemma fold_widen_attained vs ax : forall box,
  let box' := fold_left widen vs box in
  (coord ax (fst box') = coord ax (fst box)
   \/ exists v, v ∈ vs /\ coord ax (fst box') = coord ax v)
  /\ (coord ax (snd box') = coord ax (snd box)
      \/ exists v, v ∈ vs /\ coord ax (snd box') = coord ax v).
Proof.
  induction vs as [|v vs IH]; intros box; cbn [fold_left]; [auto|].
  destruct (IH (widen box v)) as [Hmin Hmax]. cbn zeta in *.
  assert (Hstep :
    (coord ax (fst (widen box v)) = coord ax v
     \/ coord ax (fst (widen box v)) = coord ax (fst box))
    /\ (coord ax (snd (widen box v)) = coord ax v
        \/ coord ax (snd (widen box v)) = coord ax (snd box))).
  { destruct box as [mn mx]. destruct ax; cbn;
      split; first [apply std_min_cases | apply std_max_cases]. }
  destruct Hstep as [Smin Smax]. split.
  - destruct Hmin as [E | (u & Hu & E)].
    + rewrite E. destruct Smin as [-> | ->]; [right|by left].
      exists v. split; [apply list_elem_of_here | done].
    + right. exists u. split; [by apply list_elem_of_further | done].
  - destruct Hmax as [E | (u & Hu & E)].
    + rewrite E. destruct Smax as [-> | ->]; [right|by left].
      exists v. split; [apply list_elem_of_here | done].
    + right. exists u. split; [by apply list_elem_of_further | done].
Qed.

Lemma widen_all_attained ts ax : forall box,
  let box' := widen_all mesh ts box in
  (coord ax (fst box') = coord ax (fst box)
   \/ vertex_coord mesh ts ax (coord ax (fst box')))
  /\ (coord ax (snd box') = coord ax (snd box)
      \/ vertex_coord mesh ts ax (coord ax (snd box'))).
Proof.
  unfold widen_all, vertex_coord.
  induction ts as [|t ts IH]; intros box; cbn [fold_left]; [auto|].
  destruct (IH (fold_left widen (getVertices (mesh t)) box)) as [Hmin Hmax].
  destruct (fold_widen_attained (getVertices (mesh t)) ax box) as [Smin Smax].
  cbn zeta in *. split.
  - destruct Hmin as [E | (u & v & Hu & Hv & E)].
    + rewrite E. destruct Smin as [-> | (v & Hv & ->)]; [by left|].
      right. exists t, v. split; [apply list_elem_of_here | done].
    + right. exists u, v. split; [by apply list_elem_of_further | done].
  - destruct Hmax as [E | (u & v & Hu & Hv & E)].
    + rewrite E. destruct Smax as [-> | (v & Hv & ->)]; [by left|].
      right. exists t, v. split; [apply list_elem_of_here | done].
    + right. exists u, v. split; [by apply list_elem_of_further | done].
Qed.

Lemma bounding_box_attained ts mn mx ax :
  bounding_box mesh ts = Done (mn, mx) ->
  vertex_coord mesh ts ax (coord ax mn)
  /\ vertex_coord mesh ts ax (coord ax mx).
Proof.
  destruct ts as [|t0 ts]; [done|]. unfold bounding_box. intros H.
  assert (E : widen_all mesh (t0 :: ts) (v1 (mesh t0), v1 (mesh t0))
              = (mn, mx)) by congruence.
  destruct (widen_all_attained (t0 :: ts) ax (v1 (mesh t0), v1 (mesh t0)))
    as [Hmin Hmax].
  rewrite E in Hmin, Hmax. cbn [fst snd] in *.
  assert (Hfirst : vertex_coord mesh (t0 :: ts) ax (coord ax (v1 (mesh t0)))).
  { exists t0, (v1 (mesh t0)). repeat split; apply list_elem_of_here. }
  split.
  - destruct Hmin as [-> | ?]; done.
  - destruct Hmax as [-> | ?]; done.
Qed.

Lemma bounding_box_ordered ts mn mx ax :
  bounding_box mesh ts = Done (mn, mx) -> coord ax mn <= coord ax mx.
Proof.
  intros H. destruct ts as [|t0 ts']; [done|].
  destruct (bounding_box_inside mesh _ mn mx t0 (v1 (mesh t0)) H) with ax
    as [H1 H2].
  - apply list_elem_of_here.
  - apply list_elem_of_here.
  - eapply Qle_trans; eauto.
Qed.

(** X6.  The box of every node of a tree returned by [construct] is tight:
    on each axis its [min] and its [max] coordinate are coordinates of
    vertices of triangles of the node, and [min <= max]. *)
Theorem construct_box_tight ts md root m ax :
  construct mesh fresh_depth ts md ms = Done root ->
  m ∈ nodes root ->
  vertex_coord mesh (get_triangles m) ax (coord ax (get_min m))
  /\ vertex_coord mesh (get_triangles m) ax (coord ax (get_max m))
  /\ coord ax (get_min m) <= coord ax (get_max m).
Proof.
  intros H Hm.
  destruct (construct_built mesh fresh_depth _ _ _ _ _ H Hm) as [Hbox _].
  destruct (bounding_box_attained _ _ _ ax Hbox). split; [done|].
  split; [done|]. by eapply bounding_box_ordered.
Qed.

(** X7.  In a tree returned by [construct] the box of a child lies inside
    the box of its parent, and the child only refers to triangles of its
    parent. *)
Theorem construct_child_box_nested ts md root m c :
  construct mesh fresh_depth ts md ms = Done root ->
  m ∈ nodes root -> child_of c m ->
  encloses (get_min m, get_max m) (get_min c, get_max c)
  /\ (forall t, t ∈ get_triangles c -> t ∈ get_triangles m).
Proof.
  intros H Hm Hc.
  destruct (construct_built mesh fresh_depth _ _ _ _ _ H Hm)
    as [Hbox [[Hl Hr] | (l & r & Hl & Hr & Hs & _)]].
  { destruct Hc; congruence. }
  assert (Hsub : forall t, t ∈ get_triangles c -> t ∈ get_triangles m).
  { intros t Ht. rewrite <- (split_triangles_perm mesh _ _ _ _ _ Hs).
    apply elem_of_app. destruct Hc as [Hc | Hc]; [left | right]; congruence. }
  split; [|done].
  assert (Hcn : c ∈ nodes root).
  { assert (Hcm : c ∈ nodes m).
    { destruct m as [a mn mx tsm lm rm]. cbn in Hl, Hr. subst lm rm.
      cbn [nodes]. apply list_elem_of_further, elem_of_app.
      destruct Hc as [Hc | Hc]; cbn in Hc; injection Hc as <-;
        [left | right]; apply nodes_self. }
    clear -Hm Hcm. revert Hm. generalize root.
    induction root0 as [a mn mx ts0 l0 r0 IHl IHr] using BVHNode_ind.
    cbn [nodes]. intros Hin. apply elem_of_cons in Hin as [-> | Hin].
    - done.
    - apply list_elem_of_further.
      apply elem_of_app in Hin as [Hin | Hin]; apply elem_of_app.
      + left. destruct l0 as [x|]; [|by apply elem_of_nil in Hin]. eauto.
      + right. destruct r0 as [x|]; [|by apply elem_of_nil in Hin]. eauto. }
  intros ax. cbn [fst snd].
  destruct (construct_built mesh fresh_depth _ _ _ _ _ H Hcn) as [Hboxc _].
  destruct (bounding_box_attained _ _ _ ax Hboxc)
    as ((t1 & u1 & Ht1 & Hu1 & ->) & (t2 & u2 & Ht2 & Hu2 & ->)).
  split.
  - apply (bounding_box_inside mesh _ _ _ t1 u1 Hbox); auto.
  - apply (bounding_box_inside mesh _ _ _ t2 u2 Hbox); auto.
Qed.

(** The side of a triangle and the midpoint of its extent. *)
Lemma goes_left_midpoint s a b c :
  (Coord.std_min3 a b c + Coord.std_max3 a b c) / 2 <= s ->
  goes_left (Float.Finite s) a b c = true.
Proof.
  intros H. apply goes_left_exact_overshoot.
  assert (E : (Coord.std_min3 a b c + Coord.std_max3 a b c) / 2
              == (Coord.std_min3 a b c + Coord.std_max3 a b c) * (1 # 2))
    by field.
  rewrite E in H. lra.
Qed.

Lemma goes_right_midpoint s a b c :
  goes_left (Float.Finite s) a b c = false ->
  s < (Coord.std_min3 a b c + Coord.std_max3 a b c) / 2
  /\ s < Coord.std_max3 a b c.
Proof.
  intros H.
  assert (Hmid : s < (Coord.std_min3 a b c + Coord.std_max3 a b c) / 2).
  { apply Qnot_le_lt. intros Hle. apply goes_left_midpoint in Hle. congruence. }
  split; [done|].
  assert (E : (Coord.std_min3 a b c + Coord.std_max3 a b c) / 2
              == (Coord.std_min3 a b c + Coord.std_max3 a b c) * (1 # 2))
    by field.
  rewrite E in Hmid.
  destruct (std_min3_least a b c) as (_ & ? & ? & ?).
  destruct (std_max3_greatest a b c) as (_ & ? & ? & ?). lra.
Qed.

Lemma goes_left_least s a b c :
  goes_left (Float.Finite s) a b c = true -> Coord.std_min3 a b c <= s.
Proof.
  intros H. apply Qnot_lt_le. intros Hlt.
  destruct (std_min3_least a b c) as (_ & ? & ? & ?).
  rewrite goes_left_all_right in H; [done|lra..].
Qed.

(** X8.  A triangle whose extent along the axis has its midpoint
    [(min + max) / 2] at or below a finite split coordinate goes left, so
    every triangle that goes right has the midpoint of its extent, and hence
    its greatest coordinate, strictly above the split coordinate, and every
    triangle that goes left has its least coordinate at or below it.  This
    holds although the two differences of line 116 are rounded. *)
Theorem goes_left_by_midpoint :
  (forall s a b c,
      ((Coord.std_min3 a b c + Coord.std_max3 a b c) / 2 <= s ->
       goes_left (Float.Finite s) a b c = true)
      /\ (goes_left (Float.Finite s) a b c = false ->
          s < (Coord.std_min3 a b c + Coord.std_max3 a b c) / 2
          /\ s < Coord.std_max3 a b c)
      /\ (goes_left (Float.Finite s) a b c = true ->
          Coord.std_min3 a b c <= s))
  /\ (forall ax s triangles t,
         (t ∈ triangles -> extent_midpoint mesh ax t <= s ->
          t ∈ fst (split_triangles mesh ax (Float.Finite s) triangles))
         /\ (t ∈ snd (split_triangles mesh ax (Float.Finite s) triangles) ->
             s < extent_midpoint mesh ax t /\ s < extent_max mesh ax t)
         /\ (t ∈ fst (split_triangles mesh ax (Float.Finite s) triangles) ->
             extent_min mesh ax t <= s)).
Proof.
  split.
  - intros s a b c. split; [|split].
    + apply goes_left_midpoint.
    + apply goes_right_midpoint.
    + apply goes_left_least.
  - intros ax s ts t. split; [|split].
    + intros Ht Hmid.
      apply (split_triangles_left mesh ax _ ts _ _ t (surjective_pairing _)).
      split; [done|]. by apply goes_left_midpoint.
    + intros Ht.
      apply (split_triangles_right mesh ax _ ts _ _ t (surjective_pairing _))
        in Ht as [_ Ht].
      by apply goes_right_midpoint.
    + intros Ht.
      apply (split_triangles_left mesh ax _ ts _ _ t (surjective_pairing _))
        in Ht as [_ Ht].
      by apply goes_left_least.
Qed.

Lemma filter_none {A} (P : A -> Prop) `{!forall x, Decision (P x)}
      (l : list A) :
  (forall x, x ∈ l -> ~ P x) -> filter P l = [].
Proof.
  intros Hno. destruct (filter P l) as [|x l'] eqn:E; [done|].
  assert (Hx : x ∈ filter P l) by (rewrite E; apply list_elem_of_here).
  apply list_elem_of_filter in Hx as [HP Hx]. by destruct (Hno x Hx).
Qed.

(** X9.  When all triangles of a non-empty input have the same vertices, in
    particular when the input is a single triangle or repeats one pointer,
    [construct] returns a single leaf, whatever the depth and the minimum
    count are: one of the two halves of the split is empty. *)
Theorem construct_coincident_is_leaf ts md t0 :
  ts <> [] -> (forall t, t ∈ ts -> mesh t = mesh t0) ->
  exists root,
    construct mesh fresh_depth ts md ms = Done root
    /\ is_leaf root = true /\ nodes root = [root].
Proof.
  intros Hne Hsame.
  destruct (construct_total mesh fresh_depth ts md ms Hne) as [root H].
  exists root. split; [done|].
  pose proof H as H0. apply construct_Done_inv in H0 as [next' H0].
  apply construct_rec_built in H0 as [Hts _].
  destruct (construct_built mesh fresh_depth _ _ _ _ _ H (nodes_self root))
    as [_ [[Hl Hr] | (l & r & _ & _ & Hs & Hln & Hrn)]].
  { destruct root as [a mn mx ts' lo ro]. cbn in Hl, Hr. by subst lo ro. }
  exfalso. rewrite split_triangles_filter in Hs. injection Hs as El Er.
  rewrite Hts in El, Er.
  set (ax := fst (longest_axis (get_min root) (get_max root))) in *.
  set (c := snd (longest_axis (get_min root) (get_max root))) in *.
  assert (Hall : forall t, t ∈ ts ->
            triangle_goes_left mesh ax c t = triangle_goes_left mesh ax c t0).
  { intros t Ht. unfold triangle_goes_left. by rewrite (Hsame t Ht). }
  destruct (triangle_goes_left mesh ax c t0) eqn:E0.
  - apply Hrn. rewrite <- Er. apply filter_none.
    intros t Ht Hnot. apply Hnot. unfold on_left. by rewrite Hall.
  - apply Hln. rewrite <- El. apply filter_none.
    intros t Ht Hon. unfold on_left in Hon. rewrite Hall in Hon; congruence.
Qed.

(** X10.  The triangle list of every node of a tree returned by [construct]
    is a subsequence of the input list: [push_back] keeps the triangles in
    the order of the input at every level. *)
Theorem construct_keeps_order ts md root m :
  construct mesh fresh_depth ts md ms = Done root ->
  m ∈ nodes root -> get_triangles m `sublist_of` ts.
Proof.
  intros H. revert m. revert ts md root H.
  apply (construct_induction (fun ts md root =>
    forall m, m ∈ nodes root -> get_triangles m `sublist_of` ts)).
  - intros ts md next mn mx _ _ m Hm. cbn in Hm.
    apply list_elem_of_singleton in Hm. by subst m.
  - intros ts md next mn mx ln rn _ _ Hl Hr IHl IHr m Hm.
    pose proof (split_triangles_filter mesh
                  (fst (longest_axis mn mx)) (snd (longest_axis mn mx)) ts)
      as Hs.
    cbn [nodes] in Hm. apply elem_of_cons in Hm as [-> | Hm]; [done|].
    apply elem_of_app in Hm as [Hm | Hm].
    + etrans; [by apply IHl|]. rewrite Hs. cbn [fst]. apply sublist_filter.
    + etrans; [by apply IHr|]. rewrite Hs. cbn [snd]. apply sublist_filter.
Qed.

(** X17.  At an internal node of a tree returned by [construct] the split
    coordinate is finite: the sum of line 59, 64 or 69 did not overflow.
    Every triangle of the left child has its least coordinate along the
    split axis at or below the split coordinate; every triangle of the right
    child has the midpoint of its extent, and hence its greatest coordinate,
    strictly above it. *)
Theorem construct_children_by_midpoint ts md root m l r :
  construct mesh fresh_depth ts md ms = Done root ->
  m ∈ nodes root -> get_left m = Some l -> get_right m = Some r ->
  let ax := fst (longest_axis (get_min m) (get_max m)) in
  exists s,
    snd (longest_axis (get_min m) (get_max m)) = Float.Finite s
    /\ (forall t, t ∈ get_triangles l -> extent_min mesh ax t <= s)
    /\ (forall t, t ∈ get_triangles r ->
                  s < extent_midpoint mesh ax t /\ s < extent_max mesh ax t).
Proof.
  intros H Hm Hl Hr ax.
  destruct (construct_built mesh fresh_depth _ _ _ _ _ H Hm)
    as [_ [[Hn _] | Hc]]; [congruence|].
  destruct Hc as (l' & r' & Hl' & Hr' & Hs & Hlne & Hrne).
  assert (l' = l /\ r' = r) as [-> ->] by (split; congruence).
  fold ax in Hs.
  assert (Hleft : forall t, t ∈ get_triangles l ->
            triangle_goes_left mesh ax
              (snd (longest_axis (get_min m) (get_max m))) t = true).
  { intros t Ht.
    apply (split_triangles_left mesh _ _ _ _ _ t Hs) in Ht. tauto. }
  assert (Hright : forall t, t ∈ get_triangles r ->
            triangle_goes_left mesh ax
              (snd (longest_axis (get_min m) (get_max m))) t = false).
  { intros t Ht.
    apply (split_triangles_right mesh _ _ _ _ _ t Hs) in Ht. tauto. }
  destruct (get_triangles l) as [|tl ?] eqn:El; [done|].
  destruct (get_triangles r) as [|tr ?] eqn:Er; [done|].
  pose proof (Hleft tl (list_elem_of_here _ _)) as Hl0.
  pose proof (Hright tr (list_elem_of_here _ _)) as Hr0.
  destruct (snd (longest_axis (get_min m) (get_max m))) as [s| | |];
    [|done..].
  exists s. split; [done|]. split.
  - intros t Ht. by apply goes_left_least, Hleft.
  - intros t Ht. by apply goes_right_midpoint, Hright.
Qed.
End BuilderMore.

(** ** The collision tester: further facts *)

Lemma nodes_child c m : child_of c m -> c ∈ nodes m.
Proof.
  destruct m as [a mn mx ts l r]. intros [Hc | Hc]; cbn in Hc; subst;
    cbn [nodes]; apply list_elem_of_further, elem_of_app; [left | right];
    apply nodes_self.
Qed.

Lemma nodes_trans root m c :
  m ∈ nodes root -> c ∈ nodes m -> c ∈ nodes root.
Proof.
  intros Hm Hc. revert Hm.
  induction root as [a mn mx ts0 l0 r0 IHl IHr] using BVHNode_ind.
  cbn [nodes]. intros Hin. apply elem_of_cons in Hin as [-> | Hin]; [done|].
  apply list_elem_of_further.
  apply elem_of_app in Hin as [Hin | Hin]; apply elem_of_app.
  - left. destruct l0 as [x|]; [|by apply elem_of_nil in Hin]. eauto.
  - right. destruct r0 as [x|]; [|by apply elem_of_nil in Hin]. eauto.
Qed.

Lemma nodes_inv m a :
  m ∈ nodes a -> m = a \/ exists c, child_of c a /\ m ∈ nodes c.
Proof.
  destruct a as [ad mn mx ts l r]. cbn [nodes]. intros Hm.
  apply elem_of_cons in Hm as [-> | Hm]; [by left | right].
  apply elem_of_app in Hm as [Hm | Hm].
  - destruct l as [x|]; [|by apply elem_of_nil in Hm].
    exists x. split; [by left | done].
  - destruct r as [x|]; [|by apply elem_of_nil in Hm].
    exists x. split; [by right | done].
Qed.

Lemma well_formed_inv n :
  well_formed n = true ->
  (get_left n = None /\ get_right n = None)
  \/ exists l r, get_left n = Some l /\ get_right n = Some r
                 /\ well_formed l = true /\ well_formed r = true.
Proof.
  destruct n as [ad mn mx ts [l|] [r|]]; cbn; try done; [|auto].
  intros H. apply andb_true_iff in H. right. exists l, r. tauto.
Qed.

Section TesterMore.
Variable mesh : tri_ptr -> Triangle.
Variable prim : Triangle -> mat4 -> Triangle -> mat4 -> bool.
Variables first_matrix second_matrix : mat4.

Abbreviation tc a b :=
  (test_collision mesh prim a first_matrix b second_matrix).
Abbreviation sep x y :=
  (boxes_separated first_matrix second_matrix (get_min x) (get_max x)
                   (get_min y) (get_max y)).
Abbreviation hits := (hit mesh prim first_matrix second_matrix).

Abbreviation justified := (justified first_matrix second_matrix).
Abbreviation run_ok := (run_ok mesh prim first_matrix second_matrix).

Lemma justified_mono a b x y e :
  x ∈ nodes a -> y ∈ nodes b -> justified x y e -> justified a b e.
Proof.
  intros Hx Hy [Hn Hc]. split.
  - intros n Hin. destruct (Hn n Hin) as (u & v & Hu & Hv & H).
    exists u, v. eauto using nodes_trans.
  - intros c Hin. destruct (Hc c Hin) as (u & v & Hu & Hv & H).
    exists u, v. eauto using nodes_trans.
Qed.

Lemma run_ok_refl a b s : run_ok a b s s.
Proof.
  exists no_flags. split; [by rewrite add_no_flags|].
  split; [apply sound_no_flags|]. split.
  - intros n Hn. by apply elem_of_empty in Hn.
  - intros c Hc. by apply elem_of_nil in Hc.
Qed.

Lemma run_ok_trans a b s1 s2 s3 :
  run_ok a b s1 s2 -> run_ok a b s2 s3 -> run_ok a b s1 s3.
Proof.
  intros (e1 & -> & S1 & [N1 C1]) (e2 & -> & S2 & [N2 C2]).
  exists (add_flags e2 e1). split; [by rewrite add_flags_assoc|].
  split; [by apply sound_add|]. split.
  - intros n Hn. cbn in Hn. apply elem_of_union in Hn as [Hn | Hn]; auto.
  - intros c Hc. cbn in Hc. apply elem_of_app in Hc as [Hc | Hc]; auto.
Qed.

Lemma run_ok_mono a b x y s s' :
  x ∈ nodes a -> y ∈ nodes b -> run_ok x y s s' -> run_ok a b s s'.
Proof.
  intros Hx Hy (e & -> & S & J). exists e. eauto using justified_mono.
Qed.

Lemma run_ok_marks a b s :
  sep a b = false ->
  run_ok a b s (mark_node (addr b) (mark_node (addr a) s)).
Proof.
  intros Hsep.
  exists (add_flags (mark_node (addr b) no_flags)
                    (mark_node (addr a) no_flags)).
  split.
  { by rewrite (mark_node_add (addr b)), (mark_node_add (addr a)),
      add_flags_assoc. }
  split; [apply sound_add; apply sound_mark_node|]. split.
  - intros n Hn. cbn in Hn. exists a, b.
    repeat split; auto using nodes_self.
    rewrite !elem_of_union, !elem_of_singleton, !elem_of_empty in Hn. tauto.
  - intros c Hc. cbn in Hc. by apply elem_of_nil in Hc.
Qed.

Lemma run_ok_triangles a b s :
  sep a b = false -> left_absent a = true -> left_absent b = true ->
  run_ok a b s (test_triangles mesh prim first_matrix second_matrix
                  (get_triangles a) (get_triangles b) s).
Proof.
  intros Hsep La Lb. eexists. split; [apply test_triangles_add|].
  split; [apply test_triangles_sound|].
  destruct (test_triangles_spec mesh prim first_matrix second_matrix
              (get_triangles a) (get_triangles b) no_flags) as (Hn & Hc & _).
  cbn zeta in *. split.
  - intros n Hin. rewrite Hn in Hin. by apply elem_of_empty in Hin.
  - intros c Hin. rewrite Hc in Hin. cbn in Hin.
    apply list_elem_of_fmap in Hin as ([ti tj] & -> & Hin).
    apply list_elem_of_In, in_prod_iff in Hin as [Hi Hj].
    apply list_elem_of_In in Hi, Hj. exists a, b. cbn.
    repeat split; auto using nodes_self.
Qed.

Lemma test_collision_run_ok a b :
  forall s s', tc a b s = Some s' -> run_ok a b s s'.
Proof.
  revert a b. apply (BVHNode_pair_ind (fun a b =>
    forall s s', tc a b s = Some s' -> run_ok a b s s')).
  intros a b Hout Hin s s'. rewrite test_collision_unfold.
  unfold test_collision_body.
  destruct (sep a b) eqn:Hsep.
  { intros [= <-]. apply run_ok_refl. }
  intros Hrun. eapply run_ok_trans; [by apply run_ok_marks|].
  revert Hrun. generalize (mark_node (addr b) (mark_node (addr a) s)).
  clear s. intros s. unfold descend.
  assert (Hkid : forall x, child_of x a -> x ∈ nodes a)
    by (intros; by apply nodes_child).
  assert (Hkid' : forall y, child_of y b -> y ∈ nodes b)
    by (intros; by apply nodes_child).
  destruct (left_absent a) eqn:La, (left_absent b) eqn:Lb; cbn [andb].
  - intros [= <-]. by apply run_ok_triangles.
  - destruct (get_left b) as [l2|] eqn:El2; cbn; [|done].
    destruct (tc a l2 s) as [s1|] eqn:E1; cbn; [|done].
    destruct (get_right b) as [r2|] eqn:Er2; cbn; [|done].
    intros E2.
    apply Hin in E1; [|by left]. apply Hin in E2; [|by right].
    eapply run_ok_trans.
    + apply (run_ok_mono a b a l2); [apply nodes_self | | exact E1].
      apply Hkid'. by left.
    + apply (run_ok_mono a b a r2); [apply nodes_self | | exact E2].
      apply Hkid'. by right.
  - destruct (get_left a) as [l1|] eqn:El1; cbn; [|done].
    destruct (tc l1 b s) as [s1|] eqn:E1; cbn; [|done].
    destruct (get_right a) as [r1|] eqn:Er1; cbn; [|done].
    intros E2.
    apply Hout in E1; [|by left|by left].
    apply Hout in E2; [|by right|by left].
    eapply run_ok_trans.
    + apply (run_ok_mono a b l1 b); [| apply nodes_self | exact E1].
      apply Hkid. by left.
    + apply (run_ok_mono a b r1 b); [| apply nodes_self | exact E2].
      apply Hkid. by right.
  - destruct (get_left a) as [l1|] eqn:El1; cbn; [|done].
    destruct (get_left b) as [l2|] eqn:El2; cbn; [|done].
    destruct (tc l1 l2 s) as [s1|] eqn:E1; cbn; [|done].
    destruct (get_right b) as [r2|] eqn:Er2; cbn; [|done].
    destruct (tc l1 r2 s1) as [s2|] eqn:E2; cbn; [|done].
    destruct (get_right a) as [r1|] eqn:Er1; cbn; [|done].
    destruct (tc r1 l2 s2) as [s3|] eqn:E3; cbn; [|done].
    intros E4.
    apply Hout in E1; [|by left|right; by left].
    apply Hout in E2; [|by left|right; by right].
    apply Hout in E3; [|by right|right; by left].
    apply Hout in E4; [|by right|right; by right].
    assert (l1 ∈ nodes a) by (apply Hkid; by left).
    assert (r1 ∈ nodes a) by (apply Hkid; by right).
    assert (l2 ∈ nodes b) by (apply Hkid'; by left).
    assert (r2 ∈ nodes b) by (apply Hkid'; by right).
    eapply run_ok_trans; [eapply run_ok_mono; [| |exact E1]; done|].
    eapply run_ok_trans; [eapply run_ok_mono; [| |exact E2]; done|].
    eapply run_ok_trans; [eapply run_ok_mono; [| |exact E3]; done|].
    eapply run_ok_mono; [| |exact E4]; done.
Qed.

(** X12.  A node flag that is set after a run of [test_collision] and was
    not set before belongs to a node of one of the two trees whose
    transformed box overlaps the transformed box of a node of the other
    tree.  Flags of other nodes are not touched. *)
Theorem test_collision_marks_only_overlapping a b s s' n :
  test_collision mesh prim a first_matrix b second_matrix s = Some s' ->
  n ∈ node_collision s' ->
  n ∈ node_collision s
  \/ exists x y,
      x ∈ nodes a /\ y ∈ nodes b
      /\ boxes_separated first_matrix second_matrix
           (get_min x) (get_max x) (get_min y) (get_max y) = false
      /\ (n = addr x \/ n = addr y).
Proof.
  intros Hrun Hn.
  destruct (test_collision_run_ok a b s s' Hrun) as (e & -> & _ & [Hj _]).
  cbn in Hn. apply elem_of_union in Hn as [Hn | Hn]; auto.
Qed.

(** X13.  A triangle flag that is set after a run of [test_collision] and
    was not set before belongs to a triangle of a node without left child,
    paired with a triangle of such a node of the other tree, the two boxes
    overlapping and the primitive answering [true] on the pair.  Flags of
    other triangles are not touched. *)
Theorem test_collision_flags_only_hits a b s s' t :
  test_collision mesh prim a first_matrix b second_matrix s = Some s' ->
  t ∈ tri_collision s' ->
  t ∈ tri_collision s
  \/ exists x y ti tj,
      x ∈ nodes a /\ y ∈ nodes b
      /\ boxes_separated first_matrix second_matrix
           (get_min x) (get_max x) (get_min y) (get_max y) = false
      /\ left_absent x = true /\ left_absent y = true
      /\ ti ∈ get_triangles x /\ tj ∈ get_triangles y
      /\ hit mesh prim first_matrix second_matrix ti tj = true
      /\ (t = ti \/ t = tj).
Proof.
  intros Hrun Ht.
  destruct (test_collision_run_ok a b s s' Hrun) as (e & -> & Se & [_ Hc]).
  cbn in Ht. apply elem_of_union in Ht as [Ht | Ht]; [|by left].
  right. destruct (Se t Ht) as (ti & tj & Hcall & Hh & Hor).
  destruct (Hc _ Hcall) as (x & y & Hx & Hy & Hsep & Lx & Ly & Hi & Hj & _).
  cbn in Hi, Hj. exists x, y, ti, tj. auto 10.
Qed.

Lemma test_collision_keeps a b s s' :
  tc a b s = Some s' ->
  (forall n, n ∈ node_collision s -> n ∈ node_collision s')
  /\ (forall t, t ∈ tri_collision s -> t ∈ tri_collision s')
  /\ (forall c, c ∈ calls s -> c ∈ calls s').
Proof.
  intros Hrun.
  destruct (test_collision_effect mesh prim first_matrix second_matrix a b)
    as [Hf | (e & _ & He)]; [by rewrite Hf in Hrun|].
  rewrite He in Hrun. injection Hrun as <-. cbn.
  repeat split; intros x Hx;
    [apply elem_of_union | apply elem_of_union | apply elem_of_app]; auto.
Qed.

(** X14.  On two trees whose nodes have both children or none, take a leaf
    of each.  If the transformed boxes overlap for every pair made of a node
    above (or equal to) the first leaf and a node above (or equal to) the
    second, the run calls the primitive on every pair of triangles of the
    two leaves, and flags both triangles of a pair on which it answers
    [true]. *)
Theorem test_collision_reaches_leaf_pairs a b la lb ti tj :
  well_formed a = true -> well_formed b = true ->
  la ∈ nodes a -> lb ∈ nodes b ->
  is_leaf la = true -> is_leaf lb = true ->
  (forall x y, x ∈ nodes a -> y ∈ nodes b ->
               la ∈ nodes x -> lb ∈ nodes y ->
               boxes_separated first_matrix second_matrix
                 (get_min x) (get_max x) (get_min y) (get_max y) = false) ->
  ti ∈ get_triangles la -> tj ∈ get_triangles lb ->
  forall s s',
    test_collision mesh prim a first_matrix b second_matrix s = Some s' ->
    mkprim_call ti first_matrix tj second_matrix ∈ calls s'
    /\ (hit mesh prim first_matrix second_matrix ti tj = true ->
        ti ∈ tri_collision s' /\ tj ∈ tri_collision s').
Proof.
  intros Wa Wb Hla Hlb Lla Llb Hover Hti Htj.
  set (G := fun s' : flags =>
    mkprim_call ti first_matrix tj second_matrix ∈ calls s'
    /\ (hits ti tj = true ->
        ti ∈ tri_collision s' /\ tj ∈ tri_collision s')).
  assert (Gkeep : forall x y s s', tc x y s = Some s' -> G s -> G s').
  { intros x y s s' Hrun [Gc Gt].
    destruct (test_collision_keeps x y s s' Hrun) as (_ & Kt & Kc).
    split; [auto|]. intros Hh. destruct (Gt Hh). auto. }
  revert a b Wa Wb Hla Hlb Hover.
  apply (BVHNode_pair_ind (fun a b =>
    well_formed a = true -> well_formed b = true ->
    la ∈ nodes a -> lb ∈ nodes b ->
    (forall x y, x ∈ nodes a -> y ∈ nodes b ->
                 la ∈ nodes x -> lb ∈ nodes y -> sep x y = false) ->
    forall s s', tc a b s = Some s' -> G s')).
  intros a b Hout Hin Wa Wb Hla Hlb Hover s s'.
  rewrite test_collision_unfold. unfold test_collision_body.
  rewrite (Hover a b) by auto using nodes_self.
  generalize (mark_node (addr b) (mark_node (addr a) s)). clear s. intros s.
  (* where the two leaves sit *)
  assert (Hposa : (la = a /\ left_absent a = true)
                  \/ (left_absent a = false
                      /\ exists c, child_of c a /\ la ∈ nodes c)).
  { destruct (well_formed_inv a Wa) as [[L R] | (l & r & L & R & _)].
    - left. split; [|unfold left_absent; by rewrite L].
      destruct (nodes_inv _ _ Hla) as [|(c & [Hc | Hc] & _)]; congruence.
    - right. split; [unfold left_absent; by rewrite L|].
      destruct (nodes_inv _ _ Hla) as [-> |]; [|done].
      unfold is_leaf in Lla. by rewrite L in Lla. }
  assert (Hposb : (lb = b /\ left_absent b = true)
                  \/ (left_absent b = false
                      /\ exists d, child_of d b /\ lb ∈ nodes d)).
  { destruct (well_formed_inv b Wb) as [[L R] | (l & r & L & R & _)].
    - left. split; [|unfold left_absent; by rewrite L].
      destruct (nodes_inv _ _ Hlb) as [|(c & [Hc | Hc] & _)]; congruence.
    - right. split; [unfold left_absent; by rewrite L|].
      destruct (nodes_inv _ _ Hlb) as [-> |]; [|done].
      unfold is_leaf in Llb. by rewrite L in Llb. }
  assert (Wkid : forall c, child_of c a -> well_formed c = true).
  { intros c Hc.
    destruct (well_formed_inv a Wa) as [[L R] | (l & r & L & R & Wl & Wr)];
      destruct Hc; congruence. }
  assert (Wkid' : forall d, child_of d b -> well_formed d = true).
  { intros d Hd.
    destruct (well_formed_inv b Wb) as [[L R] | (l & r & L & R & Wl & Wr)];
      destruct Hd; congruence. }
  assert (Hrec_in : forall d s0 s0',
            child_of d b -> lb ∈ nodes d -> tc a d s0 = Some s0' -> G s0').
  { intros d s0 s0' Hd Hld Hrun.
    apply (Hin d Hd Wa (Wkid' d Hd) Hla Hld) with s0; [|done].
    intros x y Hx Hy. apply Hover; [done|].
    eapply nodes_trans; [by apply nodes_child|done]. }
  assert (Hrec_out : forall c y s0 s0',
            child_of c a -> y = b \/ child_of y b ->
            la ∈ nodes c -> lb ∈ nodes y -> tc c y s0 = Some s0' -> G s0').
  { intros c y s0 s0' Hc Hy Hlc Hly Hrun.
    assert (Wy : well_formed y = true) by (destruct Hy as [-> |]; auto).
    assert (Ny : y ∈ nodes b)
      by (destruct Hy as [-> |]; auto using nodes_self, nodes_child).
    apply (Hout c y Hc Hy (Wkid c Hc) Wy Hlc Hly) with s0; [|done].
    intros x0 y0 Hx0 Hy0. apply Hover.
    - eapply nodes_trans; [by apply nodes_child|done].
    - eapply nodes_trans; done. }
  unfold descend.
  destruct Hposa as [[-> La] | (La & c & Hc & Hlc)];
    destruct Hposb as [[-> Lb] | (Lb & d & Hd & Hld)];
    rewrite La, Lb; cbn [andb].
  - intros [= <-].
    destruct (test_triangles_spec mesh prim first_matrix second_matrix
                (get_triangles a) (get_triangles b) s) as (_ & Hcs & Hts).
    cbn zeta in *. split.
    + rewrite Hcs. apply elem_of_app. right.
      apply list_elem_of_fmap. exists (ti, tj). split; [done|].
      apply list_elem_of_In, in_prod; by apply list_elem_of_In.
    + intros Hh. split; apply Hts; right; exists ti, tj; auto.
  - destruct (get_left b) as [l2|] eqn:El2; cbn; [|done].
    destruct (tc a l2 s) as [s1|] eqn:E1; cbn; [|done].
    destruct (get_right b) as [r2|] eqn:Er2; cbn; [|done].
    intros E2. destruct Hd as [Hd | Hd].
    + assert (d = l2) as -> by congruence.
      eapply Gkeep; [exact E2|]. eapply Hrec_in; [by left|done|exact E1].
    + assert (d = r2) as -> by congruence.
      eapply Hrec_in; [by right|done|exact E2].
  - destruct (get_left a) as [l1|] eqn:El1; cbn; [|done].
    destruct (tc l1 b s) as [s1|] eqn:E1; cbn; [|done].
    destruct (get_right a) as [r1|] eqn:Er1; cbn; [|done].
    intros E2. destruct Hc as [Hc | Hc].
    + assert (c = l1) as -> by congruence.
      eapply Gkeep; [exact E2|].
      eapply Hrec_out; [by left|by left|done|done|exact E1].
    + assert (c = r1) as -> by congruence.
      eapply Hrec_out; [by right|by left|done|done|exact E2].
  - destruct (get_left a) as [l1|] eqn:El1; cbn; [|done].
    destruct (get_left b) as [l2|] eqn:El2; cbn; [|done].
    destruct (tc l1 l2 s) as [s1|] eqn:E1; cbn; [|done].
    destruct (get_right b) as [r2|] eqn:Er2; cbn; [|done].
    destruct (tc l1 r2 s1) as [s2|] eqn:E2; cbn; [|done].
    destruct (get_right a) as [r1|] eqn:Er1; cbn; [|done].
    destruct (tc r1 l2 s2) as [s3|] eqn:E3; cbn; [|done].
    intros E4.
    destruct Hc as [Hc | Hc], Hd as [Hd | Hd].
    + assert (c = l1) as -> by congruence. assert (d = l2) as -> by congruence.
      eapply Gkeep; [exact E4|]. eapply Gkeep; [exact E3|].
      eapply Gkeep; [exact E2|].
      eapply Hrec_out; [by left|right; by left|done|done|exact E1].
    + assert (c = l1) as -> by congruence. assert (d = r2) as -> by congruence.
      eapply Gkeep; [exact E4|]. eapply Gkeep; [exact E3|].
      eapply Hrec_out; [by left|right; by right|done|done|exact E2].
    + assert (c = r1) as -> by congruence. assert (d = l2) as -> by congruence.
      eapply Gkeep; [exact E4|].
      eapply Hrec_out; [by right|right; by left|done|done|exact E3].
    + assert (c = r1) as -> by congruence. assert (d = r2) as -> by congruence.
      eapply Hrec_out; [by right|right; by right|done|done|exact E4].
Qed.
End TesterMore.

Lemma add_flags_empty_r e : add_flags e no_flags = e.
Proof.
  apply flags_eq; cbn; [by rewrite (right_id_L ∅ (∪)).. | done].
Qed.

(** A run from any flags is the run from no flags, added to them. *)
Lemma test_collision_from_empty mesh prim a Ma b Mb s :
  test_collision mesh prim a Ma b Mb s
  = (fun e => add_flags e s) <$> test_collision mesh prim a Ma b Mb no_flags.
Proof.
  destruct (test_collision_effect mesh prim Ma Mb a b) as [Hf | (e & _ & He)].
  - by rewrite !Hf.
  - rewrite !He. cbn. by rewrite add_flags_empty_r.
Qed.

(** X15.  Two runs of [test_collision], on any trees and matrices, can be
    exchanged: the second run succeeds from the initial flags, the first one
    succeeds after it, and the node and triangle flags at the end are the
    same in both orders. *)
Theorem test_collision_runs_commute mesh prim a Ma b Mb c Mc d Md s s1 s2 :
  test_collision mesh prim a Ma b Mb s = Some s1 ->
  test_collision mesh prim c Mc d Md s1 = Some s2 ->
  exists t1 t2,
    test_collision mesh prim c Mc d Md s = Some t1
    /\ test_collision mesh prim a Ma b Mb t1 = Some t2
    /\ node_collision t2 = node_collision s2
    /\ tri_collision t2 = tri_collision s2.
Proof.
  intros H1 H2.
  destruct (test_collision_effect mesh prim Ma Mb a b) as [Hf | (e1 & _ & He1)];
    [by rewrite Hf in H1|].
  destruct (test_collision_effect mesh prim Mc Md c d) as [Hf | (e2 & _ & He2)];
    [by rewrite Hf in H2|].
  rewrite He1 in H1. injection H1 as <-.
  rewrite He2 in H2. injection H2 as <-.
  exists (add_flags e2 s), (add_flags e1 (add_flags e2 s)).
  split; [apply He2|]. split; [apply He1|]. cbn.
  split.
  - rewrite !(assoc_L (∪)). f_equal. apply (comm_L (∪)).
  - rewrite !(assoc_L (∪)). f_equal. apply (comm_L (∪)).
Qed.

Lemma overlap_on_sym ax p q u v :
  overlap_on ax p q u v = overlap_on ax u v p q.
Proof. unfold overlap_on, Coord.ge. apply andb_comm. Qed.

Lemma separated_sym p q u v : separated p q u v = separated u v p q.
Proof.
  unfold separated.
  by rewrite (overlap_on_sym AxisX), (overlap_on_sym AxisY),
    (overlap_on_sym AxisZ).
Qed.

Section Symmetry.
Variable mesh : tri_ptr -> Triangle.
Variable prim : Triangle -> mat4 -> Triangle -> mat4 -> bool.
Variables Ma Mb : mat4.
Hypothesis prim_sym :
  forall t1 m1 t2 m2, prim t1 m1 t2 m2 = prim t2 m2 t1 m1.

Abbreviation run x y := (test_collision mesh prim x Ma y Mb).
Abbreviation nur y x := (test_collision mesh prim y Mb x Ma).

Abbreviation swaps := (swaps mesh prim Ma Mb).

Lemma same_flags_marks a b s s' :
  same_flags s s' ->
  same_flags (mark_node (addr b) (mark_node (addr a) s))
             (mark_node (addr a) (mark_node (addr b) s')).
Proof.
  intros [En Et]. split; cbn; [|done]. rewrite En.
  rewrite !(assoc_L (∪)). f_equal. apply (comm_L (∪)).
Qed.

Lemma same_flags_triangles ta tb s s' :
  same_flags s s' ->
  same_flags (test_triangles mesh prim Ma Mb ta tb s)
             (test_triangles mesh prim Mb Ma tb ta s').
Proof.
  intros [En Et].
  destruct (test_triangles_spec mesh prim Ma Mb ta tb s) as (Hn & _ & Ht).
  destruct (test_triangles_spec mesh prim Mb Ma tb ta s') as (Hn' & _ & Ht').
  cbn zeta in *. split; [congruence|].
  apply set_eq. intros t. rewrite Ht, Ht', Et. unfold hit. split.
  - intros [? | (tj & ti & Hj & Hi & Hh & Hor)]; [by left | right].
    exists ti, tj. rewrite prim_sym. tauto.
  - intros [? | (ti & tj & Hi & Hj & Hh & Hor)]; [by left | right].
    exists tj, ti. rewrite prim_sym. tauto.
Qed.

Lemma swaps_step x y s s2 :
  swaps x y -> run x y s = Some s2 ->
  exists e e',
    s2 = add_flags e s
    /\ (forall t, nur y x t = Some (add_flags e' t))
    /\ same_flags e e'.
Proof.
  intros Hsw Hrun. rewrite test_collision_from_empty in Hrun.
  destruct (run x y no_flags) as [e|] eqn:E; [|done].
  injection Hrun as <-. destruct (Hsw e E) as (e' & E' & Hs).
  exists e, e'. split; [done|]. split; [|done].
  intros t. by rewrite test_collision_from_empty, E'.
Qed.

Ltac same_sets :=
  unfold same_flags in *; cbn;
  repeat match goal with H : _ /\ _ |- _ => destruct H end;
  split;
  repeat match goal with H : _ = _ :> gset _ |- _ => rewrite H; clear H end;
  apply set_eq; intros ?; rewrite !elem_of_union; tauto.

Lemma swapped_run a b : swaps a b.
Proof.
  revert a b. apply (BVHNode_pair_ind swaps).
  intros a b Hout Hin e. rewrite !test_collision_unfold.
  unfold test_collision_body, boxes_separated.
  rewrite (separated_sym (mat_mul_vec Mb (get_min b))).
  destruct (separated _ _ _ _).
  { intros [= <-]. by eexists. }
  assert (Hm : same_flags (mark_node (addr b) (mark_node (addr a) no_flags))
                          (mark_node (addr a) (mark_node (addr b) no_flags)))
    by by apply same_flags_marks.
  revert Hm.
  generalize (mark_node (addr b) (mark_node (addr a) no_flags)).
  generalize (mark_node (addr a) (mark_node (addr b) no_flags)).
  intros s' s Hs. unfold descend.
  rewrite (andb_comm (left_absent b)).
  destruct (left_absent a) eqn:La, (left_absent b) eqn:Lb; cbn [andb].
  - intros [= <-]. eexists. split; [done|]. by apply same_flags_triangles.
  - destruct (get_left b) as [l2|] eqn:El2; cbn; [|done].
    destruct (run a l2 s) as [s2|] eqn:E1; cbn; [|done].
    destruct (get_right b) as [r2|] eqn:Er2; cbn; [|done].
    intros E2.
    destruct (swaps_step _ _ _ _ (Hin l2 (or_introl El2)) E1)
      as (e1 & e1' & -> & R1 & S1).
    destruct (swaps_step _ _ _ _ (Hin r2 (or_intror Er2)) E2)
      as (e2 & e2' & -> & R2 & S2).
    rewrite R1. cbn. rewrite R2. eexists. split; [done|]. same_sets.
  - destruct (get_left a) as [l1|] eqn:El1; cbn; [|done].
    destruct (run l1 b s) as [s2|] eqn:E1; cbn; [|done].
    destruct (get_right a) as [r1|] eqn:Er1; cbn; [|done].
    intros E2.
    destruct (swaps_step _ _ _ _
                (Hout l1 b (or_introl El1) (or_introl eq_refl)) E1)
      as (e1 & e1' & -> & R1 & S1).
    destruct (swaps_step _ _ _ _
                (Hout r1 b (or_intror Er1) (or_introl eq_refl)) E2)
      as (e2 & e2' & -> & R2 & S2).
    rewrite R1. cbn. rewrite R2. eexists. split; [done|]. same_sets.
  - destruct (get_left a) as [l1|] eqn:El1; cbn; [|done].
    destruct (get_left b) as [l2|] eqn:El2; cbn; [|done].
    destruct (run l1 l2 s) as [s1|] eqn:E1; cbn; [|done].
    destruct (get_right b) as [r2|] eqn:Er2; cbn; [|done].
    destruct (run l1 r2 s1) as [s2|] eqn:E2; cbn; [|done].
    destruct (get_right a) as [r1|] eqn:Er1; cbn; [|done].
    destruct (run r1 l2 s2) as [s3|] eqn:E3; cbn; [|done].
    intros E4.
    destruct (swaps_step _ _ _ _
                (Hout l1 l2 (or_introl El1) (or_intror (or_introl El2))) E1)
      as (e1 & e1' & -> & R1 & S1).
    destruct (swaps_step _ _ _ _
                (Hout l1 r2 (or_introl El1) (or_intror (or_intror Er2))) E2)
      as (e2 & e2' & -> & R2 & S2).
    destruct (swaps_step _ _ _ _
                (Hout r1 l2 (or_intror Er1) (or_intror (or_introl El2))) E3)
      as (e3 & e3' & -> & R3 & S3).
    destruct (swaps_step _ _ _ _
                (Hout r1 r2 (or_intror Er1) (or_intror (or_intror Er2))) E4)
      as (e4 & e4' & -> & R4 & S4).
    rewrite R1. cbn. rewrite R3. cbn. rewrite R2. cbn. rewrite R4.
    eexists. split; [done|]. same_sets.
Qed.

(** X16.  When the primitive gives the same answer with its two triangles
    (and their matrices) exchanged, [test_collision] with its two trees (and
    their matrices) exchanged succeeds when the original run does and leaves
    the same node and triangle flags. *)
Theorem test_collision_symmetric a b s s1 :
  test_collision mesh prim a Ma b Mb s = Some s1 ->
  exists s2,
    test_collision mesh prim b Mb a Ma s = Some s2
    /\ node_collision s2 = node_collision s1
    /\ tri_collision s2 = tri_collision s1.
Proof.
  intros Hrun.
  destruct (swaps_step _ _ _ _ (swapped_run a b) Hrun)
    as (e & e' & -> & R & [Sn St]).
  exists (add_flags e' s). split; [apply R|]. cbn. by rewrite Sn, St.
Qed.
End Symmetry.

(** ** Sample runs *)



(** Some binary32 roundings: [0.1f], [-1.9f], the tie [2^24 + 1], the
    greatest finite number and the least number that overflows, and the tie
    between 0 and the least subnormal number. *)
Example round_samples :
  Float.round (1 # 10) = Float.Finite (13421773 # 134217728)
  /\ Float.round (- (19 # 10)) = Float.Finite (- (15938355 # 8388608))
  /\ Float.round 16777217 = Float.Finite 16777216
  /\ Float.round (inject_Z (2 ^ 128 - 2 ^ 103 - 1))
     = Float.Finite (inject_Z (2 ^ 128 - 2 ^ 104))
  /\ Float.round (inject_Z (2 ^ 128 - 2 ^ 103)) = Float.PosInf
  /\ Float.round (1 # 2 ^ 150) = Float.Finite 0
  /\ Float.is_exact (1 # 2 ^ 149) = true
  /\ Float.is_exact (1 # 10) = false.
Proof. vm_compute. repeat split; reflexivity. Qed.

(** A triangle that straddles the plane [x = 2] goes to the side on which it
    reaches further. *)
Example goes_left_straddling :
  goes_left (Float.Finite 2) 1 (5 # 2) 1 = true
  /\ goes_left (Float.Finite 2) (3 # 2) 3 (3 # 2) = false.
Proof. vm_compute. split; reflexivity. Qed.

Lemma split_assigns_by_side_witness :
  goes_left (Float.Finite 2) 1 (5 # 2) 1 = true
  /\ goes_left (Float.Finite 2) (3 # 2) 3 (3 # 2) = false.
Proof.
  destruct (split_assigns_by_side demo_mesh) as [H _]. split.
  - destruct (H 2 1 (5 # 2) 1) as (_ & _ & Hs).
    destruct (Hs 1 (5 # 2)) as (_ & Hleft & _).
    + intros (_ & Hb & _). revert Hb. by vm_compute.
    + intros (Ha & _). revert Ha. by vm_compute.
    + unfold least_of. split; [left; reflexivity|]. repeat split; by vm_compute.
    + unfold greatest_of. split; [right; left; reflexivity|].
      repeat split; by vm_compute.
    + apply Hleft. by vm_compute.
  - destruct (H 2 (3 # 2) 3 (3 # 2)) as (_ & _ & Hs).
    destruct (Hs (3 # 2) 3) as (_ & _ & Hexact).
    + intros (_ & Hb & _). revert Hb. by vm_compute.
    + intros (Ha & _). revert Ha. by vm_compute.
    + unfold least_of. split; [left; reflexivity|]. repeat split; by vm_compute.
    + unfold greatest_of. split; [right; left; reflexivity|].
      repeat split; by vm_compute.
    + destruct Hexact as [_ Hright]; [by vm_compute..|].
      apply Hright. by vm_compute.
Defined.

(** The triangle with coordinates [2^-30], [2], [2^-30] straddles the plane
    at 1 and reaches further to the right of it ([1] against [1 - 2^-30]).
    In binary32 both differences are [1], and the triangle goes left. *)
Lemma split_exact_overshoot_counterexample :
  let s := 1 in
  let a := 1 # 2 ^ 30 in
  let b := 2 in
  Float.is_exact s = true /\ Float.is_exact a = true
  /\ Float.is_exact b = true
  /\ ~ (a <= s /\ b <= s /\ a <= s) /\ ~ (s < a /\ s < b /\ s < a)
  /\ least_of a a b a /\ greatest_of b a b a
  /\ goes_left (Float.Finite s) a b a = true
  /\ ~ b - s <= s - a.
Proof.
  cbv zeta. split; [by vm_compute|]. split; [by vm_compute|].
  split; [by vm_compute|].
  split; [intros (_ & H & _); revert H; by vm_compute|].
  split; [intros (H & _); revert H; by vm_compute|].
  split.
  { unfold least_of. split; [left; reflexivity|].
    repeat split; by vm_compute. }
  split.
  { unfold greatest_of. split; [right; left; reflexivity|].
    repeat split; by vm_compute. }
  split; [by vm_compute|]. by vm_compute.
Qed.

(** The triangle with coordinates [-1.9f] and [-0.1f] straddles the plane at
    [-1]; the midpoint of its extent is above [-1], by [3 * 2^-28], but the
    two differences are the same binary32 number and the triangle goes
    left. *)
Example goes_left_rounded_tie :
  let a := - (15938355 # 8388608) in
  let b := - (13421773 # 134217728) in
  Float.round (- (19 # 10)) = Float.Finite a
  /\ Float.round (- (1 # 10)) = Float.Finite b
  /\ goes_left (Float.Finite (- 1)) a b a = true
  /\ - 1 < (Coord.std_min3 a b a + Coord.std_max3 a b a) / 2.
Proof. cbv zeta. split; [|split; [|split]]; by vm_compute. Qed.

(** Far from the origin the sum of the two bounds of the box overflows: the
    split coordinate is [+infinity], every triangle goes left and the call
    returns a leaf, whatever [max_depth] is, although the two triangles are
    [2^126] apart. *)
Example construct_overflow_single_leaf :
  exists root,
    construct demo_far_mesh 1 [1; 2]%positive 5 1 = Done root
    /\ is_leaf root = true
    /\ longest_axis (get_min root) (get_max root) = (AxisX, Float.PosInf)
    /\ split_triangles demo_far_mesh AxisX Float.PosInf [1; 2]%positive
       = ([1; 2]%positive, []).
Proof. eexists. split; [vm_compute; reflexivity|]. by vm_compute. Qed.

(** A cube is split along x, a box that is longest along y and z along y. *)
Example longest_axis_ties :
  longest_axis (mkvec4 0 0 0 1) (mkvec4 2 2 2 1) = (AxisX, Float.Finite 1)
  /\ longest_axis (mkvec4 0 0 0 1) (mkvec4 1 2 2 1) = (AxisY, Float.Finite 1).
Proof. vm_compute. split; reflexivity. Qed.

(** The box from [(0, -2^-30, 0)] to [(1, 1, 0)] is strictly longer along y,
    but both lengths are [1] in binary32 and the box is split along x.  The
    box from [x = 2^127] to [x = 2^127 + 2^126] has its midpoint at
    [2^127 + 2^125]; the sum of the two bounds overflows and the split
    coordinate is [+infinity]. *)
Lemma longest_axis_exact_counterexample :
  let minPoint := mkvec4 0 (- (1 # 2 ^ 30)) 0 1 in
  let maxPoint := mkvec4 1 1 0 1 in
  let lo := inject_Z (2 ^ 127) in
  let hi := inject_Z (2 ^ 127 + 2 ^ 126) in
  (Float.is_exact (1 # 2 ^ 30) = true
   /\ fst (longest_axis minPoint maxPoint) = AxisX
   /\ exact_length AxisX minPoint maxPoint
      < exact_length AxisY minPoint maxPoint)
  /\ (Float.is_exact lo = true /\ Float.is_exact hi = true
      /\ longest_axis (mkvec4 lo 0 0 1) (mkvec4 hi 0 0 1)
         = (AxisX, Float.PosInf)
      /\ Float.is_exact ((lo + hi) / 2) = true).
Proof. cbv zeta. vm_compute. repeat split; reflexivity. Qed.

Lemma longest_axis_choice_witness :
  fst (longest_axis (get_min demo_tree) (get_max demo_tree)) = AxisX
  /\ snd (longest_axis (get_min demo_tree) (get_max demo_tree))
     = Float.Finite (11 # 4)
  /\ split_triangles demo_mesh AxisX (Float.Finite (11 # 4))
       (get_triangles demo_tree)
     = (get_triangles demo_left, get_triangles demo_right).
Proof.
  assert (E : longest_axis (get_min demo_tree) (get_max demo_tree)
              = (AxisX, Float.Finite (11 # 4))) by (vm_compute; reflexivity).
  destruct (longest_axis_choice demo_mesh 1) as (_ & Hsplit & _).
  pose proof (Hsplit [1; 2; 3; 4]%positive 1%Z 1%Z demo_tree demo_tree
                demo_left demo_right) as H.
  rewrite E in H. cbn [fst snd] in H. rewrite E. cbn [fst snd].
  split; [done|]. split; [done|]. apply H.
  - vm_compute. reflexivity.
  - vm_compute. repeat constructor.
  - reflexivity.
  - reflexivity.
Defined.

Lemma construct_children_partition_witness :
  get_triangles demo_left ++ get_triangles demo_right
  ≡ₚ get_triangles demo_tree
  /\ (forall t, t ∈ get_triangles demo_tree <->
                t ∈ get_triangles demo_left \/ t ∈ get_triangles demo_right)
  /\ (forall t, t ∈ get_triangles demo_left ->
                t ∈ get_triangles demo_right -> False).
Proof.
  apply (construct_children_partition demo_mesh 1 [1; 2; 3; 4]%positive 1 1
           demo_tree demo_tree demo_left demo_right).
  - vm_compute. reflexivity.
  - vm_compute. repeat constructor.
  - reflexivity.
  - reflexivity.
Defined.

Lemma construct_box_contains_witness :
  inside (get_min demo_left) (get_max demo_left) (v2 (demo_mesh 2%positive))
  /\ bounding_box demo_mesh (get_triangles demo_left)
     = Done (get_min demo_left, get_max demo_left).
Proof.
  apply (construct_box_contains demo_mesh 1 [1; 2; 3; 4]%positive 1 1
           demo_tree demo_left 2%positive (v2 (demo_mesh 2%positive))).
  - vm_compute. reflexivity.
  - vm_compute. repeat constructor.
  - vm_compute. repeat constructor.
  - vm_compute. repeat constructor.
Defined.

Lemma construct_children_both_or_neither_witness :
  both_or_neither demo_tree /\ left_absent demo_tree = is_leaf demo_tree.
Proof.
  apply (construct_children_both_or_neither demo_mesh 1
           [1; 2; 3; 4]%positive 1 1 demo_tree demo_tree).
  - vm_compute. reflexivity.
  - vm_compute. repeat constructor.
Defined.

Lemma test_collision_prunes_witness :
  test_collision demo_mesh demo_intersection demo_tree mat_identity
                 demo_other mat_identity no_flags
  = Some no_flags.
Proof.
  apply (test_collision_prunes demo_mesh demo_intersection mat_identity
           mat_identity demo_tree demo_other no_flags AxisX).
  vm_compute. reflexivity.
Defined.

Lemma test_collision_marks_nodes_witness :
  addr demo_tree ∈ node_collision demo_run
  /\ addr demo_other ∈ node_collision demo_run.
Proof.
  destruct (test_collision_marks_nodes demo_mesh demo_intersection
              mat_identity (mat_translate (-2) 0 0) demo_tree demo_other
              no_flags demo_run) as (_ & Hfirst & Hsecond & _).
  - vm_compute. reflexivity.
  - vm_compute. reflexivity.
  - split; [exact Hfirst | exact Hsecond].
Defined.

Lemma test_collision_leaves_all_pairs_witness :
  exists s',
    test_collision demo_mesh demo_intersection demo_right mat_identity
                   demo_other (mat_translate (-2) 0 0) no_flags = Some s'
    /\ calls s'
       = calls no_flags
         ++ map (fun p => mkprim_call (fst p) mat_identity
                                      (snd p) (mat_translate (-2) 0 0))
                (list_prod (get_triangles demo_right)
                           (get_triangles demo_other)).
Proof.
  destruct (test_collision_leaves_all_pairs demo_mesh demo_intersection
              mat_identity (mat_translate (-2) 0 0) demo_right demo_other
              no_flags) as (s' & Hrun & Hcalls & _).
  - reflexivity.
  - reflexivity.
  - vm_compute. reflexivity.
  - exists s'. split; [exact Hrun | exact Hcalls].
Defined.

Lemma test_collision_idempotent_witness :
  exists s2,
    test_collision demo_mesh demo_intersection demo_tree mat_identity
                   demo_other (mat_translate (-2) 0 0) demo_run = Some s2
    /\ node_collision s2 = node_collision demo_run
    /\ tri_collision s2 = tri_collision demo_run.
Proof.
  destruct (test_collision_idempotent demo_mesh demo_intersection
              mat_identity (mat_translate (-2) 0 0) demo_tree demo_other
              no_flags demo_run) as (_ & _ & Hagain).
  - vm_compute. reflexivity.
  - exact Hagain.
Defined.

(** *** Sample runs for the further properties *)

Lemma construct_leaves_partition_witness :
  leaf_triangles demo_tree ≡ₚ [1; 2; 3; 4]%positive
  /\ forall m, m ∈ nodes demo_tree -> get_triangles m <> [].
Proof.
  apply (construct_leaves_partition demo_mesh 1 1 [1; 2; 3; 4]%positive 1
           demo_tree).
  vm_compute. reflexivity.
Defined.

Lemma construct_size_bounds_witness :
  (node_count demo_tree + 1 <= 2 * length [1; 2; 3; 4]%positive)%nat
  /\ (height demo_tree + 1 <= length [1; 2; 3; 4]%positive)%nat.
Proof.
  apply (construct_size_bounds demo_mesh 1 1 [1; 2; 3; 4]%positive 1
           demo_tree).
  vm_compute. reflexivity.
Defined.

Lemma construct_height_within_depth_witness :
  (height demo_tree <= Z.to_nat (1 - 1 + 1))%nat.
Proof.
  apply (construct_height_within_depth demo_mesh 1 1 [1; 2; 3; 4]%positive 1
           demo_tree).
  - unfold depth_exhausted_at_zero. lia.
  - vm_compute. reflexivity.
Defined.

Lemma construct_small_children_are_leaves_witness :
  is_leaf demo_left = true.
Proof.
  apply (construct_small_children_are_leaves demo_mesh 1 3
           [1; 2; 3; 4]%positive 5 demo_tree demo_tree demo_left).
  - unfold depth_exhausted_at_zero. lia.
  - vm_compute. reflexivity.
  - vm_compute. repeat constructor.
  - left. reflexivity.
  - vm_compute. reflexivity.
Defined.

Lemma construct_box_tight_witness :
  vertex_coord demo_mesh (get_triangles demo_left) AxisX
               (coord AxisX (get_min demo_left))
  /\ vertex_coord demo_mesh (get_triangles demo_left) AxisX
                  (coord AxisX (get_max demo_left))
  /\ coord AxisX (get_min demo_left) <= coord AxisX (get_max demo_left).
Proof.
  apply (construct_box_tight demo_mesh 1 1 [1; 2; 3; 4]%positive 1
           demo_tree demo_left AxisX).
  - vm_compute. reflexivity.
  - vm_compute. repeat constructor.
Defined.

Lemma construct_child_box_nested_witness :
  encloses (get_min demo_tree, get_max demo_tree)
           (get_min demo_left, get_max demo_left)
  /\ (forall t, t ∈ get_triangles demo_left -> t ∈ get_triangles demo_tree).
Proof.
  apply (construct_child_box_nested demo_mesh 1 1 [1; 2; 3; 4]%positive 1
           demo_tree demo_tree demo_left).
  - vm_compute. reflexivity.
  - vm_compute. repeat constructor.
  - left. reflexivity.
Defined.

Lemma construct_coincident_is_leaf_witness :
  exists root,
    construct demo_mesh 1 [2; 2; 2]%positive 5 1 = Done root
    /\ is_leaf root = true /\ nodes root = [root].
Proof.
  apply (construct_coincident_is_leaf demo_mesh 1 1 [2; 2; 2]%positive 5
           2%positive).
  - discriminate.
  - intros t Ht.
    repeat (apply elem_of_cons in Ht as [-> | Ht]; [reflexivity|]).
    by apply elem_of_nil in Ht.
Defined.

Lemma construct_keeps_order_witness :
  get_triangles demo_right `sublist_of` [1; 2; 3; 4]%positive.
Proof.
  apply (construct_keeps_order demo_mesh 1 1 [1; 2; 3; 4]%positive 1
           demo_tree demo_right).
  - vm_compute. reflexivity.
  - vm_compute. repeat constructor.
Defined.

Lemma construct_children_by_midpoint_witness :
  exists s,
    snd (longest_axis (get_min demo_tree) (get_max demo_tree))
    = Float.Finite s
    /\ (forall t, t ∈ get_triangles demo_left ->
                  extent_min demo_mesh
                    (fst (longest_axis (get_min demo_tree)
                            (get_max demo_tree))) t <= s)
    /\ (forall t, t ∈ get_triangles demo_right ->
                  s < extent_midpoint demo_mesh
                        (fst (longest_axis (get_min demo_tree)
                                (get_max demo_tree))) t
                  /\ s < extent_max demo_mesh
                           (fst (longest_axis (get_min demo_tree)
                                   (get_max demo_tree))) t).
Proof.
  apply (construct_children_by_midpoint demo_mesh 1 1 [1; 2; 3; 4]%positive 1
           demo_tree demo_tree demo_left demo_right).
  - vm_compute. reflexivity.
  - vm_compute. repeat constructor.
  - reflexivity.
  - reflexivity.
Defined.

Lemma test_collision_built_witness :
  is_Some (test_collision demo_mesh demo_intersection demo_tree mat_identity
                          demo_tree (mat_translate 1 0 0) no_flags).
Proof.
  apply (test_collision_built demo_mesh demo_intersection mat_identity
           (mat_translate 1 0 0) 1 [1; 2; 3; 4]%positive 1 1
           [1; 2; 3; 4]%positive 1 1 demo_tree demo_tree no_flags).
  - vm_compute. reflexivity.
  - vm_compute. reflexivity.
Defined.

Lemma test_collision_marks_only_overlapping_witness :
  addr demo_right ∈ node_collision no_flags
  \/ exists x y,
      x ∈ nodes demo_tree /\ y ∈ nodes demo_other
      /\ boxes_separated mat_identity (mat_translate (-2) 0 0)
           (get_min x) (get_max x) (get_min y) (get_max y) = false
      /\ (addr demo_right = addr x \/ addr demo_right = addr y).
Proof.
  apply (test_collision_marks_only_overlapping demo_mesh demo_intersection
           mat_identity (mat_translate (-2) 0 0) demo_tree demo_other
           no_flags demo_run (addr demo_right)).
  - vm_compute. reflexivity.
  - vm_compute. reflexivity.
Defined.

Lemma test_collision_flags_only_hits_witness :
  3%positive ∈ tri_collision no_flags
  \/ exists x y ti tj,
      x ∈ nodes demo_tree /\ y ∈ nodes demo_other
      /\ boxes_separated mat_identity (mat_translate (-2) 0 0)
           (get_min x) (get_max x) (get_min y) (get_max y) = false
      /\ left_absent x = true /\ left_absent y = true
      /\ ti ∈ get_triangles x /\ tj ∈ get_triangles y
      /\ hit demo_mesh demo_intersection mat_identity
             (mat_translate (-2) 0 0) ti tj = true
      /\ (3%positive = ti \/ 3%positive = tj).
Proof.
  apply (test_collision_flags_only_hits demo_mesh demo_intersection
           mat_identity (mat_translate (-2) 0 0) demo_tree demo_other
           no_flags demo_run 3%positive).
  - vm_compute. reflexivity.
  - vm_compute. reflexivity.
Defined.

Lemma test_collision_reaches_leaf_pairs_witness :
  mkprim_call 3%positive mat_identity 5%positive (mat_translate (-2) 0 0)
    ∈ calls demo_run
  /\ (hit demo_mesh demo_intersection mat_identity (mat_translate (-2) 0 0)
          3%positive 5%positive = true ->
      3%positive ∈ tri_collision demo_run
      /\ 5%positive ∈ tri_collision demo_run).
Proof.
  apply (test_collision_reaches_leaf_pairs demo_mesh demo_intersection
           mat_identity (mat_translate (-2) 0 0) demo_tree demo_other
           demo_right demo_other 3%positive 5%positive) with no_flags.
  - reflexivity.
  - reflexivity.
  - vm_compute. repeat constructor.
  - vm_compute. repeat constructor.
  - reflexivity.
  - reflexivity.
  - intros x y Hx Hy Hlx Hly.
    vm_compute in Hy. apply list_elem_of_singleton in Hy. subst y.
    vm_compute in Hx.
    repeat (apply elem_of_cons in Hx as [-> | Hx]);
      [vm_compute; reflexivity | exfalso | vm_compute; reflexivity
      | by apply elem_of_nil in Hx].
    vm_compute in Hlx. apply list_elem_of_singleton in Hlx. discriminate Hlx.
  - vm_compute. repeat constructor.
  - vm_compute. repeat constructor.
  - vm_compute. reflexivity.
Defined.

Lemma test_collision_runs_commute_witness :
  exists t1 t2,
    test_collision demo_mesh demo_intersection demo_left mat_identity
                   demo_other (mat_translate (-4) 0 0) no_flags = Some t1
    /\ test_collision demo_mesh demo_intersection demo_tree mat_identity
                      demo_other (mat_translate (-2) 0 0) t1 = Some t2
    /\ node_collision t2 = node_collision demo_run_both
    /\ tri_collision t2 = tri_collision demo_run_both.
Proof.
  apply (test_collision_runs_commute demo_mesh demo_intersection
           demo_tree mat_identity demo_other (mat_translate (-2) 0 0)
           demo_left mat_identity demo_other (mat_translate (-4) 0 0)
           no_flags demo_run demo_run_both).
  - vm_compute. reflexivity.
  - vm_compute. reflexivity.
Defined.

Lemma demo_intersection_sym t1 m1 t2 m2 :
  demo_intersection t1 m1 t2 m2 = demo_intersection t2 m2 t1 m1.
Proof.
  unfold demo_intersection.
  destruct (Qeq_bool (vx (mat_mul_vec m2 (v1 t2))) _) eqn:E.
  - apply Qeq_bool_iff. apply Qeq_bool_iff in E. by symmetry.
  - apply not_true_iff_false. intros H. apply Qeq_bool_iff in H.
    apply not_true_iff_false in E. apply E, Qeq_bool_iff. by symmetry.
Qed.

Lemma test_collision_symmetric_witness :
  exists s2,
    test_collision demo_mesh demo_intersection demo_other
                   (mat_translate (-2) 0 0) demo_tree mat_identity no_flags
    = Some s2
    /\ node_collision s2 = node_collision demo_run
    /\ tri_collision s2 = tri_collision demo_run.
Proof.
  apply (test_collision_symmetric demo_mesh demo_intersection mat_identity
           (mat_translate (-2) 0 0) demo_intersection_sym demo_tree demo_other
           no_flags demo_run).
  vm_compute. reflexivity.
Defined.
